(** * Tile-based platformer movement: actor stepping against a wall grid

    A shallow embedding of [game.py]: the collision probe
    [check_collision], the actor's axis-separated [move_x] / [move_y],
    and the player's gravity and jump logic.

    Numbers.  Every finite Python number the program can hold (an [int]
    or a [float]) is a rational, so coordinates, remainders, amounts and
    velocities are values of [Q] and arithmetic is exact.  Equalities
    between computed numbers are stated with [==] where the two sides are
    different fractions of the same value.

    Rounding.  A [float] operation rounds its exact result to a binary64
    number.  Where a property depends on that, the function is given a
    second time with every arithmetic result passed through a rounding
    function [fl] (names ending in [_fl]); [fl64] is the rounding of
    binary64, to nearest with ties to the even mantissa, and the identity
    gives exact arithmetic back.

    The tile map is an object of the host library with a reader [get]
    and a writer [set]; the probe is written against that interface, so
    that what it does to the map can be stated. *)

From Stdlib Require Import ZArith QArith Qround Qabs Qpower List Bool Lia Lqa.
Import ListNotations.

Local Open Scope Q_scope.

(** ** Constants *)

Definition GRAVITY : Q := 2 # 10.
Definition JUMP_POWER : Q := 2.
Definition TILE_SIZE : Z := 8.
Definition EMPTY_TILE : Z := 0.
Definition PLAYER_TILE : Z := 1.
Definition WALL_TILES : list Z := [2; 3; 4; 5]%Z.

(** [tile in WALL_TILES]. *)
Definition is_wall (tile : Z) : bool := existsb (Z.eqb tile) WALL_TILES.

(** ** Python's number operations *)

(** [int(a // b)] for a positive integer [b]: the floor of the quotient. *)
Definition floordiv (a : Q) (b : Z) : Z := Qfloor (a / inject_Z b).

(** [round(q)]: the nearest integer, a tie going to the even one. *)
Definition round (q : Q) : Z :=
  let f := Qfloor q in
  match Qcompare (q - inject_Z f) (1 # 2) with
  | Lt => f
  | Gt => (f + 1)%Z
  | Eq => if Z.even f then f else (f + 1)%Z
  end.

(** [a < b] as a test. *)
Definition Qlt_bool (a b : Q) : bool :=
  match Qcompare a b with Lt => true | _ => false end.

(** [range(lo, hi)]. *)
Definition range (lo hi : Z) : list Z :=
  map (fun i => (lo + Z.of_nat i)%Z) (seq 0 (Z.to_nat (hi - lo))).

(** ** The tile map interface *)

Definition Tilemap : Type := Z -> Z -> Z.

(** Programs over the tile map: each node is one call of [get] or of
    [set] followed by the rest of the program. *)
Inductive TileIO (A : Type) : Type :=
| io_ret (a : A)
| io_get (cx cy : Z) (k : Z -> TileIO A)
| io_set (cx cy tile : Z) (k : TileIO A).

Arguments io_ret {A} a.
Arguments io_get {A} cx cy k.
Arguments io_set {A} cx cy tile k.

Definition tm_set (tm : Tilemap) (cx cy tile : Z) : Tilemap :=
  fun cx' cy' => if ((cx' =? cx) && (cy' =? cy))%Z then tile else tm cx' cy'.

Fixpoint run_io {A : Type} (prog : TileIO A) (tm : Tilemap) : A * Tilemap :=
  match prog with
  | io_ret a => (a, tm)
  | io_get cx cy k => run_io (k (tm cx cy)) tm
  | io_set cx cy tile k => run_io k (tm_set tm cx cy tile)
  end.

(** ** check_collision *)

(** The inner loop [for x in range(tx0, tx1 + 1)] over one row; [rest] is
    what follows when the row holds no wall. *)
Fixpoint scan_columns (cy : Z) (cols : list Z) (rest : TileIO bool)
  : TileIO bool :=
  match cols with
  | [] => rest
  | cx :: cols' =>
      io_get cx cy (fun tile =>
        if is_wall tile then io_ret true else scan_columns cy cols' rest)
  end.

(** The outer loop [for y in range(ty0, ty1 + 1)]; falling out of it
    returns [False]. *)
Fixpoint scan_rows (rows cols : list Z) : TileIO bool :=
  match rows with
  | [] => io_ret false
  | cy :: rows' => scan_columns cy cols (scan_rows rows' cols)
  end.

Definition check_collision_io (x y : Q) : TileIO bool :=
  let tx0 := floordiv x TILE_SIZE in
  let ty0 := floordiv y TILE_SIZE in
  let tx1 := floordiv (x + inject_Z TILE_SIZE - 1) TILE_SIZE in
  let ty1 := floordiv (y + inject_Z TILE_SIZE - 1) TILE_SIZE in
  scan_rows (range ty0 (ty1 + 1)) (range tx0 (tx1 + 1)).

(** The value [check_collision] returns on the map [tm]. *)
Definition check_collision (tm : Tilemap) (x y : Q) : bool :=
  fst (run_io (check_collision_io x y) tm).

(** ** Actor and Player *)

(** The one object the program moves: a [Player], with the fields of its
    base class [Actor] and its own velocity. *)
Record Player : Type := mkPlayer {
  x : Q;
  y : Q;
  x_remainder : Q;
  y_remainder : Q;
  vx : Q;
  vy : Q
}.

(** [Player.__init__] (through [Actor.__init__]). *)
Definition Player_init (x0 y0 : Q) : Player := mkPlayer x0 y0 0 0 0 0.

Definition set_x (v : Q) (p : Player) : Player :=
  mkPlayer v (y p) (x_remainder p) (y_remainder p) (vx p) (vy p).
Definition set_y (v : Q) (p : Player) : Player :=
  mkPlayer (x p) v (x_remainder p) (y_remainder p) (vx p) (vy p).
Definition set_x_remainder (v : Q) (p : Player) : Player :=
  mkPlayer (x p) (y p) v (y_remainder p) (vx p) (vy p).
Definition set_y_remainder (v : Q) (p : Player) : Player :=
  mkPlayer (x p) (y p) (x_remainder p) v (vx p) (vy p).
Definition set_vx (v : Q) (p : Player) : Player :=
  mkPlayer (x p) (y p) (x_remainder p) (y_remainder p) v (vy p).
Definition set_vy (v : Q) (p : Player) : Player :=
  mkPlayer (x p) (y p) (x_remainder p) (y_remainder p) (vx p) v.

(** A collision callback is a procedure on the object; [on_collision=None]
    is [None]. *)
Definition Callback : Type := option (Player -> Player).

(** [if on_collision: on_collision()]. *)
Definition call (cb : Callback) (p : Player) : Player :=
  match cb with
  | Some f => f p
  | None => p
  end.

(** [sign = 1 if move > 0 else -1]. *)
Definition sign_of (move : Z) : Z := if (move >? 0)%Z then 1%Z else (-1)%Z.

Section Movement.

Variable tilemap : Tilemap.

(** The loop [while move != 0] of [move_x].  [move] reaches 0 in steps
    of [sign], so the body runs at most [|move|] times: [pixels] is the
    number of pixels still to step. *)
Fixpoint move_x_loop (pixels : nat) (sign : Z) (cb : Callback) (p : Player)
  : Player :=
  match pixels with
  | O => p
  | S pixels' =>
      if check_collision tilemap (x p + inject_Z sign) (y p)
      then call cb p
      else move_x_loop pixels' sign cb (set_x (x p + inject_Z sign) p)
  end.

Definition move_x (amount : Q) (cb : Callback) (p : Player) : Player :=
  let p := set_x_remainder (x_remainder p + amount) p in
  let move := round (x_remainder p) in
  if (move =? 0)%Z then p
  else
    let p := set_x_remainder (x_remainder p - inject_Z move) p in
    move_x_loop (Z.abs_nat move) (sign_of move) cb p.

Fixpoint move_y_loop (pixels : nat) (sign : Z) (cb : Callback) (p : Player)
  : Player :=
  match pixels with
  | O => p
  | S pixels' =>
      if check_collision tilemap (x p) (y p + inject_Z sign)
      then call cb p
      else move_y_loop pixels' sign cb (set_y (y p + inject_Z sign) p)
  end.

Definition move_y (amount : Q) (cb : Callback) (p : Player) : Player :=
  let p := set_y_remainder (y_remainder p + amount) p in
  let move := round (y_remainder p) in
  if (move =? 0)%Z then p
  else
    let p := set_y_remainder (y_remainder p - inject_Z move) p in
    move_y_loop (Z.abs_nat move) (sign_of move) cb p.

(** *** Player *)

Definition on_horizontal_collision (p : Player) : Player := set_vx 0 p.
Definition on_vertical_collision (p : Player) : Player := set_vy 0 p.

(** [apply_gravity]; [up_held] is [pyxel.btn(pyxel.KEY_UP)]. *)
Definition apply_gravity (up_held : bool) (p : Player) : Player :=
  let gravity_to_apply := GRAVITY in
  let gravity_to_apply :=
    if Qlt_bool (vy p) 0 then
      let g := gravity_to_apply * (7 # 10) in
      if up_held then g * (6 # 10) else g
    else gravity_to_apply in
  set_vy (vy p + gravity_to_apply) p.

Definition jump (p : Player) : Player :=
  if check_collision tilemap (x p) (y p + inject_Z TILE_SIZE)
  then set_vy (- JUMP_POWER) p
  else p.

(** The keys [Player.update] reads in one frame. *)
Record Keys : Type := mkKeys {
  right_held : bool;   (* btn(KEY_RIGHT) *)
  left_held : bool;    (* btn(KEY_LEFT) *)
  up_held : bool;      (* btn(KEY_UP) *)
  up_pressed : bool    (* btnp(KEY_UP) *)
}.

Definition btni (held : bool) : Q := if held then 1 else 0.

Definition update (keys : Keys) (p : Player) : Player :=
  let p := move_x (vx p) (Some on_horizontal_collision) p in
  let p := move_y (vy p) (Some on_vertical_collision) p in
  let p := set_vx (btni (right_held keys) - btni (left_held keys)) p in
  let p := apply_gravity (up_held keys) p in
  if up_pressed keys then jump p else p.

End Movement.

(** ** Game.scan_map *)

(** The inner loop [for x in range(tilemap.width)] of [scan_map] on row
    [cy]: a player tile moves the player there and is cleared. *)
Fixpoint scan_map_columns (cy : Z) (cols : list Z) (p : Player)
         (rest : Player -> TileIO Player) : TileIO Player :=
  match cols with
  | [] => rest p
  | cx :: cols' =>
      io_get cx cy (fun tile =>
        if (tile =? PLAYER_TILE)%Z then
          let p := set_x (inject_Z (cx * TILE_SIZE)) p in
          let p := set_y (inject_Z (cy * TILE_SIZE)) p in
          io_set cx cy EMPTY_TILE (scan_map_columns cy cols' p rest)
        else scan_map_columns cy cols' p rest)
  end.

Fixpoint scan_map_rows (rows cols : list Z) (p : Player) : TileIO Player :=
  match rows with
  | [] => io_ret p
  | cy :: rows' => scan_map_columns cy cols p (scan_map_rows rows' cols)
  end.

(** [width] and [height] are [tilemap.width] and [tilemap.height]. *)
Definition scan_map (width height : Z) (p : Player) : TileIO Player :=
  scan_map_rows (range 0 height) (range 0 width) p.

(** ** Binary64 rounding *)

Definition pow2 (e : Z) : Q := Qpower 2 e.

(** [floor (log2 q)] for a positive [q]. *)
Definition ilog2 (q : Q) : Z :=
  let e0 := (Z.log2 (Qnum q) - Z.log2 (Z.pos (Qden q)))%Z in
  if Qle_bool (pow2 e0) q then e0 else (e0 - 1)%Z.

(** The binary64 number nearest to [q]: a 53-bit mantissa times a power
    of two not below [2^-1074], a tie going to the even mantissa.
    Results beyond the largest finite binary64 number are not cut off. *)
Definition fl64 (q : Q) : Q :=
  if Qeq_bool q 0 then 0
  else
    let e := Z.max (ilog2 (Qabs q) - 52) (-1074) in
    Qred (inject_Z (round (q / pow2 e)) * pow2 e).

(** ** The program with its float arithmetic rounded *)

Section Rounded.

Variable fl : Q -> Q.

(** [check_collision] on floats: [x + TILE_SIZE - 1] is two rounded
    operations; [x // TILE_SIZE] is the floor of the exact quotient. *)
Definition check_collision_fl_io (x y : Q) : TileIO bool :=
  let tx0 := floordiv x TILE_SIZE in
  let ty0 := floordiv y TILE_SIZE in
  let tx1 := floordiv (fl (fl (x + inject_Z TILE_SIZE) - 1)) TILE_SIZE in
  let ty1 := floordiv (fl (fl (y + inject_Z TILE_SIZE) - 1)) TILE_SIZE in
  scan_rows (range ty0 (ty1 + 1)) (range tx0 (tx1 + 1)).

Definition check_collision_fl (tm : Tilemap) (x y : Q) : bool :=
  fst (run_io (check_collision_fl_io x y) tm).

(** [GRAVITY = 0.2]: the binary64 number the literal denotes. *)
Definition GRAVITY_fl : Q := fl (2 # 10).

(** [apply_gravity] on floats: the literals, each product and the sum
    are rounded. *)
Definition apply_gravity_fl (up_held : bool) (p : Player) : Player :=
  let gravity_to_apply := GRAVITY_fl in
  let gravity_to_apply :=
    if Qlt_bool (vy p) 0 then
      let g := fl (gravity_to_apply * fl (7 # 10)) in
      if up_held then fl (g * fl (6 # 10)) else g
    else gravity_to_apply in
  set_vy (fl (vy p + gravity_to_apply)) p.

Variable tilemap : Tilemap.

(** [move_x] on floats: the sum into the remainder, the difference taken
    out of it and each [x + sign] are rounded. *)
Fixpoint move_x_loop_fl (pixels : nat) (sign : Z) (cb : Callback) (p : Player)
  : Player :=
  match pixels with
  | O => p
  | S pixels' =>
      if check_collision_fl tilemap (fl (x p + inject_Z sign)) (y p)
      then call cb p
      else move_x_loop_fl pixels' sign cb (set_x (fl (x p + inject_Z sign)) p)
  end.

Definition move_x_fl (amount : Q) (cb : Callback) (p : Player) : Player :=
  let p := set_x_remainder (fl (x_remainder p + amount)) p in
  let move := round (x_remainder p) in
  if (move =? 0)%Z then p
  else
    let p := set_x_remainder (fl (x_remainder p - inject_Z move)) p in
    move_x_loop_fl (Z.abs_nat move) (sign_of move) cb p.

End Rounded.

(** A wall along column 1 and nothing else. *)
Definition column1_map : Tilemap :=
  fun cx cy => if (cx =? 1)%Z then 2%Z else EMPTY_TILE.

(** ** Sequences of move calls *)

(** A callback that leaves the fields of [Actor] alone (it may do
    anything to the velocity), as both callbacks of [Player] do. *)
Definition keeps_actor (f : Player -> Player) : Prop :=
  forall p,
    x (f p) = x p /\ y (f p) = y p /\
    x_remainder (f p) = x_remainder p /\ y_remainder (f p) = y_remainder p.

Definition cb_ok (cb : Callback) : Prop :=
  match cb with
  | Some f => keeps_actor f
  | None => True
  end.

Inductive MoveCall : Type :=
| MoveX (amount : Q) (cb : Callback)
| MoveY (amount : Q) (cb : Callback).

Definition call_ok (c : MoveCall) : Prop :=
  match c with
  | MoveX _ cb => cb_ok cb
  | MoveY _ cb => cb_ok cb
  end.

Definition do_call (tm : Tilemap) (c : MoveCall) (p : Player) : Player :=
  match c with
  | MoveX amount cb => move_x tm amount cb p
  | MoveY amount cb => move_y tm amount cb p
  end.

(** The calls of [calls] made one after the other, first to last. *)
Definition run_calls (tm : Tilemap) (calls : list MoveCall) (p : Player)
  : Player :=
  fold_left (fun p c => do_call tm c p) calls p.

(** [q] is a whole number. *)
Definition is_integer (q : Q) : Prop := inject_Z (Qfloor q) == q.

(** The coordinate reached from [q] by [k] single-pixel steps. *)
Fixpoint advance (k : nat) (sign : Z) (q : Q) : Q :=
  match k with
  | O => q
  | S k' => advance k' sign (q + inject_Z sign)
  end.

(** The two move methods differ in the axis only; these name, for an
    axis, the method, the coordinate and remainder it works on, and the
    probe it makes at a coordinate [v] along the axis. *)
Inductive Axis : Type := AxisX | AxisY.

Definition move (tm : Tilemap) (ax : Axis)
  : Q -> Callback -> Player -> Player :=
  match ax with AxisX => move_x tm | AxisY => move_y tm end.

Definition coord (ax : Axis) (p : Player) : Q :=
  match ax with AxisX => x p | AxisY => y p end.

Definition set_coord (ax : Axis) (v : Q) (p : Player) : Player :=
  match ax with AxisX => set_x v p | AxisY => set_y v p end.

Definition remainder (ax : Axis) (p : Player) : Q :=
  match ax with AxisX => x_remainder p | AxisY => y_remainder p end.

Definition set_remainder (ax : Axis) (v : Q) (p : Player) : Player :=
  match ax with
  | AxisX => set_x_remainder v p
  | AxisY => set_y_remainder v p
  end.

Definition probe (tm : Tilemap) (ax : Axis) (v : Q) (p : Player) : bool :=
  match ax with
  | AxisX => check_collision tm v (y p)
  | AxisY => check_collision tm (x p) v
  end.

(** Both remainders are at most one half in magnitude. *)
Definition half_remainders (p : Player) : Prop :=
  (- (1 # 2) <= x_remainder p /\ x_remainder p <= 1 # 2) /\
  (- (1 # 2) <= y_remainder p /\ y_remainder p <= 1 # 2).

(** Sub-pixel accumulation read as a threshold at a whole pixel: a call
    with an amount below one pixel changes [x] only when the remainder it
    has accumulated, the amount included, has reached 1 or -1. *)
Definition steps_only_at_unit (tm : Tilemap) : Prop :=
  forall (amount : Q) (p : Player),
    -1 < amount -> amount < 1 ->
    - (1 # 2) <= x_remainder p -> x_remainder p <= 1 # 2 ->
    ~ x (move_x tm amount None p) == x p ->
    1 <= Qabs (x_remainder p + amount).

(** ** Game *)

Definition W : Z := 128.
Definition H : Z := 128.

(** [Game.__init__] after the window and the assets are set up: the
    player is made at the middle of the window and [scan_map] runs. *)
Definition Game_init (width height : Z) : TileIO Player :=
  scan_map width height (Player_init (inject_Z W / 2) (inject_Z H / 2)).

(** [Game.update] frame after frame, each with the keys it reads. *)
Definition run_frames (tm : Tilemap) (frames : list Keys) (p : Player)
  : Player :=
  fold_left (fun p keys => update tm keys p) frames p.

(** ** What scan_map does, cell by cell *)

(** The player put at the top-left pixel of cell [(cx, cy)]. *)
Definition place (cx cy : Z) (p : Player) : Player :=
  set_y (inject_Z (cy * TILE_SIZE)) (set_x (inject_Z (cx * TILE_SIZE)) p).

(** One visit of the scan, on the map as it is at that moment. *)
Definition sweep_cell (s : Player * Tilemap) (cell : Z * Z)
  : Player * Tilemap :=
  if (snd s (fst cell) (snd cell) =? PLAYER_TILE)%Z
  then (place (fst cell) (snd cell) (fst s),
        tm_set (snd s) (fst cell) (snd cell) EMPTY_TILE)
  else s.

Definition sweep (cells : list (Z * Z)) (s : Player * Tilemap)
  : Player * Tilemap :=
  fold_left sweep_cell cells s.

(** The cells in the order the two loops visit them: row by row. *)
Definition scan_cells (rows cols : list Z) : list (Z * Z) :=
  flat_map (fun cy => map (fun cx => (cx, cy)) cols) rows.

(** The cells [scan_map] visits on a map of the given size. *)
Definition in_area (width height c r : Z) : Prop :=
  (0 <= c < width /\ 0 <= r < height)%Z.

(** The state a move call works on once the remainder is updated and the
    step taken out of it, [j] pixels along the axis. *)
Definition stepped (ax : Axis) (amount : Q) (j : nat) (p : Player) : Player :=
  set_coord ax
    (advance j (sign_of (round (remainder ax p + amount))) (coord ax p))
    (set_remainder ax
       (remainder ax p + amount - inject_Z (round (remainder ax p + amount)))
       p).

(** The velocity component of an axis, the other axis, and the callback
    [Player.update] passes to the move along an axis. *)
Definition velocity (ax : Axis) (p : Player) : Q :=
  match ax with AxisX => vx p | AxisY => vy p end.

Definition other (ax : Axis) : Axis :=
  match ax with AxisX => AxisY | AxisY => AxisX end.

Definition own_callback (ax : Axis) : Player -> Player :=
  match ax with
  | AxisX => on_horizontal_collision
  | AxisY => on_vertical_collision
  end.

(** The player after the two move calls that open [Player.update]. *)
Definition moved (tm : Tilemap) (p : Player) : Player :=
  move_y tm (vy (move_x tm (vx p) (Some on_horizontal_collision) p))
    (Some on_vertical_collision)
    (move_x tm (vx p) (Some on_horizontal_collision) p).


(** The player sits on whole pixels with no horizontal remainder, an
    integer horizontal velocity and a vertical remainder within one half
    of zero: the state the game keeps from its first frame on. *)
Definition on_pixels (p : Player) : Prop :=
  is_integer (x p) /\ is_integer (y p) /\
  x_remainder p == 0 /\ is_integer (vx p) /\
  (- (1 # 2) <= y_remainder p /\ y_remainder p <= 1 # 2).

(** ** Maps used in the examples *)

Definition empty_map : Tilemap := fun _ _ => EMPTY_TILE.

(** A player tile at column 3, row 2 and nothing else. *)
Definition spawn_map : Tilemap :=
  fun cx cy => if ((cx =? 3) && (cy =? 2))%Z then PLAYER_TILE else EMPTY_TILE.

(** The level below with the player's tile at column 3, row 3. *)
Definition start_map : Tilemap :=
  fun cx cy =>
    if (cy =? 4)%Z then 2%Z
    else if (cx =? 5)%Z then 3%Z
    else if ((cx =? 3) && (cy =? 3))%Z then PLAYER_TILE
    else EMPTY_TILE.

(** Keys of a few frames: walk right, jump, let go. *)
Definition sample_frames : list Keys :=
  [mkKeys true false false false;
   mkKeys true false true true;
   mkKeys false false true false;
   mkKeys false true false false].

(** A floor along row 4 and a wall along column 5. *)
Definition level_map : Tilemap :=
  fun cx cy => if (cy =? 4)%Z then 2%Z else if (cx =? 5)%Z then 3%Z else EMPTY_TILE.

(** * Properties *)

(** ** The embedding on sample inputs *)

Example round_ties :
  map round [1 # 2; 3 # 2; 5 # 2; - (1 # 2); - (3 # 2); 6 # 10; - (7 # 4)]
  = [0; 2; 2; 0; -2; 1; -2]%Z.
Proof. reflexivity. Qed.

Example floordiv_negative :
  (floordiv (- (1 # 2)) TILE_SIZE, floordiv 7 TILE_SIZE, floordiv 8 TILE_SIZE)
  = (-1, 0, 1)%Z.
Proof. reflexivity. Qed.

(** At x = 32 the box ends at pixel 39, short of the wall at 40; one pixel
    further it reaches it. *)
Example probe_at_wall :
  (check_collision level_map 32 24, check_collision level_map 33 24,
   check_collision level_map 28 25) = (false, true, true).
Proof. reflexivity. Qed.

Example move_right_stops_at_wall :
  move_x level_map 10 (Some on_horizontal_collision) (mkPlayer 28 24 0 0 1 0)
  = mkPlayer (28 + 1 + 1 + 1 + 1) 24 (0 + 10 - 10) 0 0 0.
Proof. reflexivity. Qed.

Example scan_map_spawn :
  let r := run_io (scan_map 16 16 (Player_init 64 64)) spawn_map in
  (x (fst r), y (fst r), snd r 3%Z 2%Z) = (24, 16, EMPTY_TILE).
Proof. reflexivity. Qed.

(** [fl64] on sample values: the literals 0.2, 0.7 and 0.6, the sum
    0.1 + 0.2, a tie above [2^53] going to the even mantissa, and half the
    smallest positive binary64 number going to 0. *)
Example fl64_samples :
  (fl64 (2 # 10), fl64 (7 # 10), fl64 (6 # 10),
   fl64 (fl64 (1 # 10) + fl64 (2 # 10)),
   fl64 9007199254740993, fl64 (pow2 (-1075)))
  = (3602879701896397 # 18014398509481984,
     3152519739159347 # 4503599627370496,
     5404319552844595 # 9007199254740992,
     1351079888211149 # 4503599627370496,
     9007199254740992, 0).
Proof. vm_compute. reflexivity. Qed.

(** In binary64 a remainder of 0.5 plus an amount of 0.9999999999999999
    is exactly 1.5, which rounds to 2: the call steps two pixels. *)
Example two_pixels_at_the_tie :
  fl64 ((1 # 2) + fl64 (9999999999999999 # 10000000000000000)) == 3 # 2 /\
  x (move_x_fl fl64 empty_map (fl64 (9999999999999999 # 10000000000000000))
       None (mkPlayer 0 0 (1 # 2) 0 0 0)) == 2.
Proof. split; vm_compute; reflexivity. Qed.

(** ** Rounding *)

Lemma inject_Z_lt_inv (a b : Z) : inject_Z a < inject_Z b -> (a < b)%Z.
Proof. intro H. rewrite Zlt_Qlt. exact H. Qed.


Lemma floor_bounds (q : Q) :
  inject_Z (Qfloor q) <= q /\ q < inject_Z (Qfloor q) + 1.
Proof.
  split; [apply Qfloor_le|].
  generalize (Qlt_floor q). rewrite inject_Z_plus. trivial.
Qed.

(** The floor is the only integer within one below [q]. *)
Lemma floor_unique (q : Q) (n : Z) :
  inject_Z n <= q -> q < inject_Z n + 1 -> Qfloor q = n.
Proof.
  intros Hlo Hhi. destruct (floor_bounds q) as [Flo Fhi].
  assert (H1 : inject_Z n < inject_Z (Qfloor q + 1)).
  { rewrite inject_Z_plus. change (inject_Z 1) with 1. lra. }
  assert (H2 : inject_Z (Qfloor q) < inject_Z (n + 1)).
  { rewrite inject_Z_plus. change (inject_Z 1) with 1. lra. }
  apply inject_Z_lt_inv in H1, H2. lia.
Qed.

Lemma round_near (q : Q) :
  - (1 # 2) <= q - inject_Z (round q) /\ q - inject_Z (round q) <= 1 # 2.
Proof.
  unfold round. destruct (floor_bounds q) as [Flo Fhi].
  destruct (Qcompare (q - inject_Z (Qfloor q)) (1 # 2)) eqn:E.
  - apply Qeq_alt in E. destruct (Z.even (Qfloor q)).
    + lra.
    + rewrite inject_Z_plus. change (inject_Z 1) with 1. lra.
  - apply Qlt_alt in E. lra.
  - apply Qgt_alt in E. rewrite inject_Z_plus. change (inject_Z 1) with 1. lra.
Qed.

Lemma round_small (q : Q) : - (1 # 2) <= q -> q <= 1 # 2 -> round q = 0%Z.
Proof.
  intros Hlo Hhi. unfold round. destruct (floor_bounds q) as [Flo Fhi].
  destruct (Qlt_le_dec q 0) as [Hneg | Hpos].
  - assert (F : Qfloor q = (-1)%Z).
    { apply floor_unique; change (inject_Z (-1)) with (-(1)); lra. }
    rewrite F. change (inject_Z (-1)) with (-(1)).
    destruct (Qcompare (q - - (1)) (1 # 2)) eqn:E.
    + reflexivity.
    + apply Qlt_alt in E. lra.
    + reflexivity.
  - assert (F : Qfloor q = 0%Z).
    { apply floor_unique; change (inject_Z 0) with 0; lra. }
    rewrite F. change (inject_Z 0) with 0.
    destruct (Qcompare (q - 0) (1 # 2)) eqn:E.
    + reflexivity.
    + reflexivity.
    + apply Qgt_alt in E. lra.
Qed.

Lemma round_up_one (q : Q) : 1 # 2 < q -> q < 3 # 2 -> round q = 1%Z.
Proof.
  intros Hlo Hhi. unfold round.
  destruct (Qlt_le_dec q 1) as [Hlt | Hge].
  - assert (F : Qfloor q = 0%Z).
    { apply floor_unique; change (inject_Z 0) with 0; lra. }
    rewrite F. change (inject_Z 0) with 0.
    destruct (Qcompare (q - 0) (1 # 2)) eqn:E.
    + apply Qeq_alt in E. lra.
    + apply Qlt_alt in E. lra.
    + reflexivity.
  - assert (F : Qfloor q = 1%Z).
    { apply floor_unique; change (inject_Z 1) with 1; lra. }
    rewrite F. change (inject_Z 1) with 1.
    destruct (Qcompare (q - 1) (1 # 2)) eqn:E.
    + apply Qeq_alt in E. lra.
    + reflexivity.
    + apply Qgt_alt in E. lra.
Qed.

Lemma round_down_one (q : Q) : - (3 # 2) < q -> q < - (1 # 2) -> round q = (-1)%Z.
Proof.
  intros Hlo Hhi. unfold round.
  destruct (Qlt_le_dec q (-(1))) as [Hlt | Hge].
  - assert (F : Qfloor q = (-2)%Z).
    { apply floor_unique; change (inject_Z (-2)) with (-(2)); lra. }
    rewrite F. change (inject_Z (-2)) with (-(2)).
    destruct (Qcompare (q - - (2)) (1 # 2)) eqn:E.
    + apply Qeq_alt in E. lra.
    + apply Qlt_alt in E. lra.
    + reflexivity.
  - assert (F : Qfloor q = (-1)%Z).
    { apply floor_unique; change (inject_Z (-1)) with (-(1)); lra. }
    rewrite F. change (inject_Z (-1)) with (-(1)).
    destruct (Qcompare (q - - (1)) (1 # 2)) eqn:E.
    + apply Qeq_alt in E. lra.
    + reflexivity.
    + apply Qgt_alt in E. lra.
Qed.

Lemma round_eq (a b : Q) : a == b -> round a = round b.
Proof.
  intro E. unfold round. rewrite (Qfloor_comp a b E).
  assert (C : Qcompare (a - inject_Z (Qfloor b)) (1 # 2)
              = Qcompare (b - inject_Z (Qfloor b)) (1 # 2)).
  { apply Qcompare_comp; [rewrite E; reflexivity | reflexivity]. }
  rewrite C. reflexivity.
Qed.

(** ** The collision probe *)

Lemma range_In (lo hi i : Z) : In i (range lo hi) <-> (lo <= i < hi)%Z.
Proof.
  unfold range. rewrite in_map_iff. split.
  - intros [k [Hk Hin]]. apply in_seq in Hin. lia.
  - intros H. exists (Z.to_nat (i - lo)). split; [lia|].
    apply in_seq. lia.
Qed.

Lemma is_wall_In (tile : Z) : is_wall tile = true <-> In tile WALL_TILES.
Proof.
  unfold is_wall. rewrite existsb_exists. split.
  - intros [w [Hin Heq]]. apply Z.eqb_eq in Heq. now subst.
  - intros Hin. exists tile. split; [exact Hin | apply Z.eqb_refl].
Qed.

(** One row of the scan reads the map and either answers [True] at the
    row's first wall or carries on with [rest]; the map is as it was. *)
Lemma scan_columns_run (tm : Tilemap) (cy : Z) (cols : list Z)
      (rest : TileIO bool) :
  run_io (scan_columns cy cols rest) tm =
  if existsb (fun cx => is_wall (tm cx cy)) cols
  then (true, tm) else run_io rest tm.
Proof.
  induction cols as [| cx cols IH]; simpl.
  - reflexivity.
  - destruct (is_wall (tm cx cy)); simpl; [reflexivity | exact IH].
Qed.

Lemma scan_rows_run (tm : Tilemap) (rows cols : list Z) :
  run_io (scan_rows rows cols) tm =
  (existsb (fun cy => existsb (fun cx => is_wall (tm cx cy)) cols) rows, tm).
Proof.
  induction rows as [| cy rows IH]; simpl.
  - reflexivity.
  - rewrite scan_columns_run.
    destruct (existsb (fun cx => is_wall (tm cx cy)) cols); simpl;
      [reflexivity | exact IH].
Qed.

Lemma check_collision_run (tm : Tilemap) (x y : Q) :
  run_io (check_collision_io x y) tm = (check_collision tm x y, tm).
Proof.
  unfold check_collision, check_collision_io.
  rewrite scan_rows_run. reflexivity.
Qed.

Lemma check_collision_true (tm : Tilemap) (x y : Q) :
  check_collision tm x y = true <->
  exists col row : Z,
    (floordiv x TILE_SIZE <= col
       <= floordiv (x + inject_Z TILE_SIZE - 1) TILE_SIZE)%Z /\
    (floordiv y TILE_SIZE <= row
       <= floordiv (y + inject_Z TILE_SIZE - 1) TILE_SIZE)%Z /\
    In (tm col row) WALL_TILES.
Proof.
  unfold check_collision, check_collision_io.
  rewrite scan_rows_run. simpl fst. rewrite existsb_exists. split.
  - intros [row [Hrow Hex]]. apply existsb_exists in Hex.
    destruct Hex as [col [Hcol Hw]].
    apply range_In in Hrow. apply range_In in Hcol.
    exists col, row. rewrite <- is_wall_In. repeat split; try lia. exact Hw.
  - intros [col [row [Hcol [Hrow Hw]]]].
    exists row. split; [apply range_In; lia|].
    apply existsb_exists. exists col. split; [apply range_In; lia|].
    now apply is_wall_In.
Qed.

(** The probe depends on the value of its arguments only. *)
Lemma floordiv_eq (a b : Q) (n : Z) : a == b -> floordiv a n = floordiv b n.
Proof. intro H. unfold floordiv. now rewrite H. Qed.

Lemma check_collision_eq (tm : Tilemap) (x1 y1 x2 y2 : Q) :
  x1 == x2 -> y1 == y2 -> check_collision tm x1 y1 = check_collision tm x2 y2.
Proof.
  intros Hx Hy. unfold check_collision, check_collision_io.
  rewrite (floordiv_eq x1 x2), (floordiv_eq y1 y2) by assumption.
  rewrite (floordiv_eq (x1 + inject_Z TILE_SIZE - 1) (x2 + inject_Z TILE_SIZE - 1)),
          (floordiv_eq (y1 + inject_Z TILE_SIZE - 1) (y2 + inject_Z TILE_SIZE - 1)).
  - reflexivity.
  - now rewrite Hy.
  - now rewrite Hx.
Qed.

Lemma check_collision_fl_run (fl : Q -> Q) (tm : Tilemap) (x y : Q) :
  run_io (check_collision_fl_io fl x y) tm = (check_collision_fl fl tm x y, tm).
Proof.
  unfold check_collision_fl, check_collision_fl_io.
  rewrite scan_rows_run. reflexivity.
Qed.

Lemma check_collision_fl_true (fl : Q -> Q) (tm : Tilemap) (x y : Q) :
  check_collision_fl fl tm x y = true <->
  exists col row : Z,
    (floordiv x TILE_SIZE <= col
       <= floordiv (fl (fl (x + inject_Z TILE_SIZE)%Q - 1)%Q) TILE_SIZE)%Z /\
    (floordiv y TILE_SIZE <= row
       <= floordiv (fl (fl (y + inject_Z TILE_SIZE)%Q - 1)%Q) TILE_SIZE)%Z /\
    In (tm col row) WALL_TILES.
Proof.
  unfold check_collision_fl, check_collision_fl_io.
  rewrite scan_rows_run. simpl fst. rewrite existsb_exists. split.
  - intros [row [Hrow Hex]]. apply existsb_exists in Hex.
    destruct Hex as [col [Hcol Hw]].
    apply range_In in Hrow. apply range_In in Hcol.
    exists col, row. rewrite <- is_wall_In. repeat split; try lia. exact Hw.
  - intros [col [row [Hcol [Hrow Hw]]]].
    exists row. split; [apply range_In; lia|].
    apply existsb_exists. exists col. split; [apply range_In; lia|].
    now apply is_wall_In.
Qed.

(** Where the two sums come out exact the rounded probe is the exact
    one. *)
Lemma check_collision_fl_exact (fl : Q -> Q) (tm : Tilemap) (x y : Q) :
  fl (fl (x + inject_Z TILE_SIZE)%Q - 1)%Q == x + inject_Z TILE_SIZE - 1 ->
  fl (fl (y + inject_Z TILE_SIZE)%Q - 1)%Q == y + inject_Z TILE_SIZE - 1 ->
  check_collision_fl fl tm x y = check_collision tm x y.
Proof.
  intros Hx Hy.
  unfold check_collision_fl, check_collision_fl_io,
    check_collision, check_collision_io.
  now rewrite (floordiv_eq _ _ TILE_SIZE Hx), (floordiv_eq _ _ TILE_SIZE Hy).
Qed.

(** C4. Collision probe contract, as the code computes it:
    [check_collision(x, y)] is true exactly when some grid cell
    [(col, row)] with [floor(x / TILE_SIZE) <= col <= floor(sx / TILE_SIZE)]
    and [floor(y / TILE_SIZE) <= row <= floor(sy / TILE_SIZE)], both ranges
    inclusive, holds a tile id of [WALL_TILES], where [sx] and [sy] are
    [x + TILE_SIZE - 1] and [y + TILE_SIZE - 1] as computed, each of the
    two operations rounded; it is false otherwise, and running the probe
    leaves the tile map as it was.  Where those sums come out exact (as
    they do for integer coordinates) the ranges are the exact
    [floor((x + TILE_SIZE - 1) / TILE_SIZE)] ones. *)
Theorem check_collision_contract (fl : Q -> Q) (tm : Tilemap) (x y : Q) :
  (check_collision_fl fl tm x y = true <->
   exists col row : Z,
     (Qfloor (x / inject_Z TILE_SIZE) <= col
        <= Qfloor (fl (fl (x + inject_Z TILE_SIZE)%Q - 1)%Q / inject_Z TILE_SIZE))%Z /\
     (Qfloor (y / inject_Z TILE_SIZE) <= row
        <= Qfloor (fl (fl (y + inject_Z TILE_SIZE)%Q - 1)%Q / inject_Z TILE_SIZE))%Z /\
     In (tm col row) WALL_TILES) /\
  snd (run_io (check_collision_fl_io fl x y) tm) = tm /\
  (fl (fl (x + inject_Z TILE_SIZE)%Q - 1)%Q == x + inject_Z TILE_SIZE - 1 ->
   fl (fl (y + inject_Z TILE_SIZE)%Q - 1)%Q == y + inject_Z TILE_SIZE - 1 ->
   (check_collision_fl fl tm x y = true <->
    exists col row : Z,
      (Qfloor (x / inject_Z TILE_SIZE) <= col
         <= Qfloor ((x + inject_Z TILE_SIZE - 1) / inject_Z TILE_SIZE))%Z /\
      (Qfloor (y / inject_Z TILE_SIZE) <= row
         <= Qfloor ((y + inject_Z TILE_SIZE - 1) / inject_Z TILE_SIZE))%Z /\
      In (tm col row) WALL_TILES)).
Proof.
  split; [| split].
  - apply check_collision_fl_true.
  - rewrite check_collision_fl_run. reflexivity.
  - intros Hx Hy. rewrite (check_collision_fl_exact fl tm x y Hx Hy).
    apply check_collision_true.
Qed.

(** C4 as stated fails on floats: at [x = 1 - 2^-53], a binary64 number,
    [x + 8] rounds to 9 and the probe reads column 1, where the wall is,
    while [floor((x + 8 - 1) / 8)] is 0 and the cells of the stated range
    hold no wall. *)
Lemma check_collision_rounding_counterexample :
  fl64 (9007199254740991 # 9007199254740992)
    == 9007199254740991 # 9007199254740992 /\
  check_collision_fl fl64 column1_map (9007199254740991 # 9007199254740992) 0
    = true /\
  ~ (exists col row : Z,
       (Qfloor ((9007199254740991 # 9007199254740992) / inject_Z TILE_SIZE)
          <= col
          <= Qfloor (((9007199254740991 # 9007199254740992)
                      + inject_Z TILE_SIZE - 1) / inject_Z TILE_SIZE))%Z /\
       (Qfloor (0 / inject_Z TILE_SIZE) <= row
          <= Qfloor ((0 + inject_Z TILE_SIZE - 1) / inject_Z TILE_SIZE))%Z /\
       In (column1_map col row) WALL_TILES).
Proof.
  split; [| split].
  - vm_compute. reflexivity.
  - vm_compute. reflexivity.
  - intros (col & row & Hc & _ & Hw).
    assert (F0 : Qfloor ((9007199254740991 # 9007199254740992)
                         / inject_Z TILE_SIZE) = 0%Z) by (vm_compute; reflexivity).
    assert (F1 : Qfloor (((9007199254740991 # 9007199254740992)
                          + inject_Z TILE_SIZE - 1) / inject_Z TILE_SIZE) = 0%Z)
      by (vm_compute; reflexivity).
    rewrite F0, F1 in Hc. assert (col = 0%Z) by lia. subst col.
    vm_compute in Hw. intuition discriminate.
Qed.

(** ** What a move call leaves alone *)

Lemma call_keeps (cb : Callback) (p : Player) :
  cb_ok cb ->
  x (call cb p) = x p /\ y (call cb p) = y p /\
  x_remainder (call cb p) = x_remainder p /\
  y_remainder (call cb p) = y_remainder p.
Proof.
  destruct cb as [f |]; simpl; intro H; [apply H | repeat split].
Qed.

Lemma set_x_same (p : Player) : set_x (x p) p = p.
Proof. now destruct p. Qed.

Lemma set_y_same (p : Player) : set_y (y p) p = p.
Proof. now destruct p. Qed.

Lemma Qplus_0_r_eq (q : Q) : q + 0 = q.
Proof.
  destruct q as [n d]. unfold Qplus. simpl.
  rewrite Z.mul_1_r, Z.add_0_r, Pos.mul_1_r. reflexivity.
Qed.

Lemma set_x_remainder_zero (p : Player) :
  set_x_remainder (x_remainder p + 0) p = p.
Proof. rewrite Qplus_0_r_eq. now destruct p. Qed.

Lemma is_integer_iff (q : Q) : is_integer q <-> exists n : Z, q == inject_Z n.
Proof.
  unfold is_integer. split.
  - intro H. exists (Qfloor q). symmetry. exact H.
  - intros [n H]. assert (F : Qfloor q = n).
    { rewrite (Qfloor_comp q (inject_Z n) H). apply Qfloor_Z. }
    rewrite F. symmetry. exact H.
Qed.

Lemma is_integer_step (q : Q) (s : Z) :
  is_integer q -> is_integer (q + inject_Z s).
Proof.
  rewrite !is_integer_iff. intros [n H]. exists (n + s)%Z.
  rewrite inject_Z_plus, H. reflexivity.
Qed.

Lemma advance_value (k : nat) (sign : Z) (q : Q) :
  advance k sign q == q + inject_Z (Z.of_nat k * sign).
Proof.
  revert q. induction k as [| k IH]; intro q.
  - simpl. change (inject_Z 0) with 0. lra.
  - change (advance (S k) sign q) with (advance k sign (q + inject_Z sign)).
    rewrite IH.
    replace (Z.of_nat (S k) * sign)%Z with (sign + Z.of_nat k * sign)%Z by lia.
    rewrite (inject_Z_plus sign). lra.
Qed.

Section MovementFacts.

Variable tilemap : Tilemap.
Variable cb : Callback.

Section KeepingCallback.

Hypothesis cb_keeps : cb_ok cb.

Lemma move_x_loop_fields (sign : Z) (pixels : nat) (p : Player) :
  y (move_x_loop tilemap pixels sign cb p) = y p /\
  x_remainder (move_x_loop tilemap pixels sign cb p) = x_remainder p /\
  y_remainder (move_x_loop tilemap pixels sign cb p) = y_remainder p.
Proof.
  revert p. induction pixels as [| n IH]; intro p; simpl.
  - repeat split.
  - destruct (check_collision tilemap (x p + inject_Z sign) (y p)).
    + destruct (call_keeps cb p cb_keeps) as (_ & H1 & H2 & H3). auto.
    + destruct (IH (set_x (x p + inject_Z sign) p)) as (H1 & H2 & H3). auto.
Qed.

Lemma move_y_loop_fields (sign : Z) (pixels : nat) (p : Player) :
  x (move_y_loop tilemap pixels sign cb p) = x p /\
  x_remainder (move_y_loop tilemap pixels sign cb p) = x_remainder p /\
  y_remainder (move_y_loop tilemap pixels sign cb p) = y_remainder p.
Proof.
  revert p. induction pixels as [| n IH]; intro p; simpl.
  - repeat split.
  - destruct (check_collision tilemap (x p) (y p + inject_Z sign)).
    + destruct (call_keeps cb p cb_keeps) as (H1 & _ & H2 & H3). auto.
    + destruct (IH (set_y (y p + inject_Z sign) p)) as (H1 & H2 & H3). auto.
Qed.

(** The loop never steps onto a pixel the probe reports solid. *)
Lemma move_x_loop_clear (sign : Z) (pixels : nat) (p : Player) :
  check_collision tilemap (x p) (y p) = false ->
  let p' := move_x_loop tilemap pixels sign cb p in
  check_collision tilemap (x p') (y p') = false.
Proof.
  revert p. induction pixels as [| n IH]; intros p Hfree; simpl.
  - exact Hfree.
  - destruct (check_collision tilemap (x p + inject_Z sign) (y p)) eqn:E.
    + destruct (call_keeps cb p cb_keeps) as (H1 & H2 & _).
      rewrite H1, H2. exact Hfree.
    + apply IH. exact E.
Qed.

Lemma move_y_loop_clear (sign : Z) (pixels : nat) (p : Player) :
  check_collision tilemap (x p) (y p) = false ->
  let p' := move_y_loop tilemap pixels sign cb p in
  check_collision tilemap (x p') (y p') = false.
Proof.
  revert p. induction pixels as [| n IH]; intros p Hfree; simpl.
  - exact Hfree.
  - destruct (check_collision tilemap (x p) (y p + inject_Z sign)) eqn:E.
    + destruct (call_keeps cb p cb_keeps) as (H1 & H2 & _).
      rewrite H1, H2. exact Hfree.
    + apply IH. exact E.
Qed.

Lemma move_x_loop_integer (sign : Z) (pixels : nat) (p : Player) :
  is_integer (x p) -> is_integer (x (move_x_loop tilemap pixels sign cb p)).
Proof.
  revert p. induction pixels as [| n IH]; intros p Hint; simpl.
  - exact Hint.
  - destruct (check_collision tilemap (x p + inject_Z sign) (y p)).
    + destruct (call_keeps cb p cb_keeps) as (H1 & _). now rewrite H1.
    + apply IH. simpl. now apply is_integer_step.
Qed.

Lemma move_y_loop_integer (sign : Z) (pixels : nat) (p : Player) :
  is_integer (y p) -> is_integer (y (move_y_loop tilemap pixels sign cb p)).
Proof.
  revert p. induction pixels as [| n IH]; intros p Hint; simpl.
  - exact Hint.
  - destruct (check_collision tilemap (x p) (y p + inject_Z sign)).
    + destruct (call_keeps cb p cb_keeps) as (_ & H1 & _). now rewrite H1.
    + apply IH. simpl. now apply is_integer_step.
Qed.

(** [move_x] on the fields other than [x]. *)
Lemma move_x_fields (amount : Q) (p : Player) :
  let r := x_remainder p + amount in
  y (move_x tilemap amount cb p) = y p /\
  x_remainder (move_x tilemap amount cb p) == r - inject_Z (round r) /\
  y_remainder (move_x tilemap amount cb p) = y_remainder p.
Proof.
  intro r. unfold move_x. simpl x_remainder. fold r.
  destruct (round r =? 0)%Z eqn:E.
  - apply Z.eqb_eq in E. rewrite E. simpl. repeat split.
    change (inject_Z 0) with 0. lra.
  - match goal with |- context [move_x_loop _ ?n ?s _ ?q] =>
      destruct (move_x_loop_fields s n q) as (H1 & H2 & H3) end.
    rewrite H1, H2, H3. simpl. repeat split; reflexivity.
Qed.

Lemma move_y_fields (amount : Q) (p : Player) :
  let r := y_remainder p + amount in
  x (move_y tilemap amount cb p) = x p /\
  x_remainder (move_y tilemap amount cb p) = x_remainder p /\
  y_remainder (move_y tilemap amount cb p) == r - inject_Z (round r).
Proof.
  intro r. unfold move_y. simpl y_remainder. fold r.
  destruct (round r =? 0)%Z eqn:E.
  - apply Z.eqb_eq in E. rewrite E. simpl. repeat split.
    change (inject_Z 0) with 0. lra.
  - match goal with |- context [move_y_loop _ ?n ?s _ ?q] =>
      destruct (move_y_loop_fields s n q) as (H1 & H2 & H3) end.
    rewrite H1, H2, H3. simpl. repeat split; reflexivity.
Qed.

Lemma move_x_clear (amount : Q) (p : Player) :
  check_collision tilemap (x p) (y p) = false ->
  let p' := move_x tilemap amount cb p in
  check_collision tilemap (x p') (y p') = false.
Proof.
  intros Hfree. unfold move_x. simpl x_remainder.
  destruct (round (x_remainder p + amount) =? 0)%Z.
  - exact Hfree.
  - apply move_x_loop_clear. exact Hfree.
Qed.

Lemma move_y_clear (amount : Q) (p : Player) :
  check_collision tilemap (x p) (y p) = false ->
  let p' := move_y tilemap amount cb p in
  check_collision tilemap (x p') (y p') = false.
Proof.
  intros Hfree. unfold move_y. simpl y_remainder.
  destruct (round (y_remainder p + amount) =? 0)%Z.
  - exact Hfree.
  - apply move_y_loop_clear. exact Hfree.
Qed.

Lemma move_x_integer (amount : Q) (p : Player) :
  is_integer (x p) -> is_integer (x (move_x tilemap amount cb p)).
Proof.
  intros Hint. unfold move_x. simpl x_remainder.
  destruct (round (x_remainder p + amount) =? 0)%Z.
  - exact Hint.
  - apply move_x_loop_integer. exact Hint.
Qed.

Lemma move_y_integer (amount : Q) (p : Player) :
  is_integer (y p) -> is_integer (y (move_y tilemap amount cb p)).
Proof.
  intros Hint. unfold move_y. simpl y_remainder.
  destruct (round (y_remainder p + amount) =? 0)%Z.
  - exact Hint.
  - apply move_y_loop_integer. exact Hint.
Qed.

End KeepingCallback.

End MovementFacts.


(** ** Remainders along a sequence of calls *)

Lemma do_call_half (tm : Tilemap) (c : MoveCall) (p : Player) :
  call_ok c -> half_remainders p -> half_remainders (do_call tm c p).
Proof.
  intros Hok [Hx Hy]. destruct c as [amount cb | amount cb]; simpl in *.
  - destruct (move_x_fields tm cb Hok amount p) as (_ & Hr & Hyr).
    pose proof (round_near (x_remainder p + amount)) as Hn.
    unfold half_remainders. rewrite Hr, Hyr. split; [exact Hn | exact Hy].
  - destruct (move_y_fields tm cb Hok amount p) as (_ & Hxr & Hr).
    pose proof (round_near (y_remainder p + amount)) as Hn.
    unfold half_remainders. rewrite Hr, Hxr. split; [exact Hx | exact Hn].
Qed.

Lemma run_calls_half (tm : Tilemap) (calls : list MoveCall) (p : Player) :
  Forall call_ok calls -> half_remainders p ->
  half_remainders (run_calls tm calls p).
Proof.
  revert p. induction calls as [| c calls IH]; intros p Hok Hp; simpl.
  - exact Hp.
  - inversion Hok as [| c' calls' Hc Hcalls]; subst.
    apply IH; [exact Hcalls | now apply do_call_half].
Qed.

Lemma zero_half (p : Player) :
  x_remainder p == 0 -> y_remainder p == 0 -> half_remainders p.
Proof. intros Hx Hy. unfold half_remainders. rewrite Hx, Hy. lra. Qed.

Lemma Forall_firstn {A : Type} (P : A -> Prop) (n : nat) (l : list A) :
  Forall P l -> Forall P (firstn n l).
Proof.
  revert n. induction l as [| a l IH]; intros n H.
  - destruct n; constructor.
  - destruct n; simpl; [constructor|].
    inversion H; subst. constructor; auto.
Qed.

(** C2. Remainder invariant: along every sequence of [move_x] / [move_y]
    calls with arbitrary amounts, started with both remainders zero, the
    stored [x_remainder] and [y_remainder] lie strictly between -1 and 1
    after each call (after the first [n] calls, for every [n]).  The
    callbacks are those that leave the actor's own fields alone. *)
Theorem remainder_invariant (tm : Tilemap) (calls : list MoveCall)
        (p0 : Player) (n : nat) :
  Forall call_ok calls ->
  x_remainder p0 == 0 -> y_remainder p0 == 0 ->
  (-1 < x_remainder (run_calls tm (firstn n calls) p0) /\
   x_remainder (run_calls tm (firstn n calls) p0) < 1) /\
  (-1 < y_remainder (run_calls tm (firstn n calls) p0) /\
   y_remainder (run_calls tm (firstn n calls) p0) < 1).
Proof.
  intros Hok Hx Hy.
  destruct (run_calls_half tm (firstn n calls) p0) as [[A B] [C D]].
  - now apply Forall_firstn.
  - now apply zero_half.
  - repeat split; lra.
Qed.

(** C9. Tightened remainder bound: along every such sequence each stored
    remainder lies in the closed interval from -1/2 to 1/2 after each
    call, since [round] leaves a leftover of at most one half. *)
Theorem remainder_half_bound (tm : Tilemap) (calls : list MoveCall)
        (p0 : Player) (n : nat) :
  Forall call_ok calls ->
  x_remainder p0 == 0 -> y_remainder p0 == 0 ->
  (- (1 # 2) <= x_remainder (run_calls tm (firstn n calls) p0) /\
   x_remainder (run_calls tm (firstn n calls) p0) <= 1 # 2) /\
  (- (1 # 2) <= y_remainder (run_calls tm (firstn n calls) p0) /\
   y_remainder (run_calls tm (firstn n calls) p0) <= 1 # 2).
Proof.
  intros Hok Hx Hy.
  apply (run_calls_half tm (firstn n calls) p0).
  - now apply Forall_firstn.
  - now apply zero_half.
Qed.

(** ** No tunneling *)

(** C1. No tunneling: when the actor's tile-sized box does not overlap a
    solid tile, then after [move_x(amount, cb)], and likewise after
    [move_y(amount, cb)], for any amount, the probe at the new position is
    still false.  The callback is one that leaves the actor's own fields
    alone. *)
Theorem no_tunneling (tm : Tilemap) (amount : Q) (cb : Callback) (p : Player) :
  cb_ok cb ->
  check_collision tm (x p) (y p) = false ->
  check_collision tm (x (move_x tm amount cb p)) (y (move_x tm amount cb p))
    = false /\
  check_collision tm (x (move_y tm amount cb p)) (y (move_y tm amount cb p))
    = false.
Proof.
  intros Hok Hfree. split.
  - now apply move_x_clear.
  - now apply move_y_clear.
Qed.

(** ** Collision inside the stepping loop *)




(** ** Sub-pixel steps *)

(** A remainder that rounds to zero is kept and nothing else happens. *)
Lemma move_x_small (tm : Tilemap) (cb : Callback) (amount : Q) (p : Player) :
  - (1 # 2) <= x_remainder p + amount -> x_remainder p + amount <= 1 # 2 ->
  move_x tm amount cb p = set_x_remainder (x_remainder p + amount) p.
Proof.
  intros Hlo Hhi. unfold move_x. simpl x_remainder.
  rewrite (round_small _ Hlo Hhi). reflexivity.
Qed.

Lemma round_zero_iff (q : Q) :
  round q = 0%Z <-> - (1 # 2) <= q /\ q <= 1 # 2.
Proof.
  split.
  - intro H. pose proof (round_near q) as [Hlo Hhi]. rewrite H in Hlo, Hhi.
    change (inject_Z 0) with 0 in *. split; lra.
  - intros [Hlo Hhi]. now apply round_small.
Qed.

Lemma round_one_iff (q : Q) : round q = 1%Z <-> 1 # 2 < q /\ q < 3 # 2.
Proof.
  split.
  - intro H. pose proof (round_near q) as [Hlo Hhi]. rewrite H in Hlo, Hhi.
    change (inject_Z 1) with 1 in *.
    destruct (Qeq_dec q (1 # 2)) as [E | NE1].
    { rewrite (round_eq _ _ E) in H. discriminate H. }
    destruct (Qeq_dec q (3 # 2)) as [E | NE2].
    { rewrite (round_eq _ _ E) in H. discriminate H. }
    split.
    + destruct (Qlt_le_dec (1 # 2) q) as [L | L]; [exact L |].
      exfalso. apply NE1. lra.
    + destruct (Qlt_le_dec q (3 # 2)) as [L | L]; [exact L |].
      exfalso. apply NE2. lra.
  - intros [Hlo Hhi]. now apply round_up_one.
Qed.

Lemma round_minus_one_iff (q : Q) :
  round q = (-1)%Z <-> - (3 # 2) < q /\ q < - (1 # 2).
Proof.
  split.
  - intro H. pose proof (round_near q) as [Hlo Hhi]. rewrite H in Hlo, Hhi.
    change (inject_Z (-1)) with (-(1)) in *.
    destruct (Qeq_dec q (- (1 # 2))) as [E | NE1].
    { rewrite (round_eq _ _ E) in H. discriminate H. }
    destruct (Qeq_dec q (- (3 # 2))) as [E | NE2].
    { rewrite (round_eq _ _ E) in H. discriminate H. }
    split.
    + destruct (Qlt_le_dec (- (3 # 2)) q) as [L | L]; [exact L |].
      exfalso. apply NE2. lra.
    + destruct (Qlt_le_dec q (- (1 # 2))) as [L | L]; [exact L |].
      exfalso. apply NE1. lra.
  - intros [Hlo Hhi]. now apply round_down_one.
Qed.

(** The rounded [move_x] by its rounded step: none, one pixel right, one
    pixel left. *)
Lemma move_x_fl_zero (fl : Q -> Q) (tm : Tilemap) (cb : Callback)
      (amount : Q) (p : Player) :
  round (fl (x_remainder p + amount)) = 0%Z ->
  move_x_fl fl tm amount cb p
  = set_x_remainder (fl (x_remainder p + amount)) p.
Proof.
  intro H. unfold move_x_fl. cbn [x_remainder set_x_remainder].
  rewrite H. reflexivity.
Qed.

Lemma move_x_fl_one (fl : Q -> Q) (tm : Tilemap) (cb : Callback)
      (amount : Q) (p : Player) :
  round (fl (x_remainder p + amount)) = 1%Z ->
  check_collision_fl fl tm (fl (x p + 1)) (y p) = false ->
  move_x_fl fl tm amount cb p
  = set_x (fl (x p + 1))
      (set_x_remainder (fl (fl (x_remainder p + amount) - 1)) p).
Proof.
  intros H Hfree. unfold move_x_fl. cbn [x_remainder set_x_remainder].
  rewrite H.
  change (1 =? 0)%Z with false. change (Z.abs_nat 1) with 1%nat.
  change (sign_of 1) with 1%Z. cbv beta iota zeta. unfold move_x_loop_fl.
  match goal with |- context [check_collision_fl fl tm ?a ?b] =>
    change (check_collision_fl fl tm a b)
      with (check_collision_fl fl tm (fl (x p + 1)) (y p))
  end.
  rewrite Hfree. reflexivity.
Qed.

Lemma move_x_fl_minus_one (fl : Q -> Q) (tm : Tilemap) (cb : Callback)
      (amount : Q) (p : Player) :
  round (fl (x_remainder p + amount)) = (-1)%Z ->
  check_collision_fl fl tm (fl (x p + inject_Z (-1))) (y p) = false ->
  move_x_fl fl tm amount cb p
  = set_x (fl (x p + inject_Z (-1)))
      (set_x_remainder (fl (fl (x_remainder p + amount) - inject_Z (-1))) p).
Proof.
  intros H Hfree. unfold move_x_fl. cbn [x_remainder set_x_remainder].
  rewrite H.
  change (-1 =? 0)%Z with false. change (Z.abs_nat (-1)) with 1%nat.
  change (sign_of (-1)) with (-1)%Z. cbv beta iota zeta.
  unfold move_x_loop_fl.
  match goal with |- context [check_collision_fl fl tm ?a ?b] =>
    change (check_collision_fl fl tm a b)
      with (check_collision_fl fl tm (fl (x p + inject_Z (-1))) (y p))
  end.
  rewrite Hfree. reflexivity.
Qed.

(** Five calls of [move_x(0.2)] in binary64, from a zero remainder. *)
Lemma five_calls_fl64 (tm : Tilemap) (cb : Callback) (x0 y0 : Q) :
  check_collision_fl fl64 tm (fl64 (x0 + 1)) y0 = false ->
  Nat.iter 2 (move_x_fl fl64 tm (fl64 (2 # 10)) cb) (Player_init x0 y0)
  = mkPlayer x0 y0 (3602879701896397 # 9007199254740992) 0 0 0 /\
  Nat.iter 3 (move_x_fl fl64 tm (fl64 (2 # 10)) cb) (Player_init x0 y0)
  = mkPlayer (fl64 (x0 + 1)) y0
      (Qmake (-900719925474099) 2251799813685248) 0 0 0 /\
  x (Nat.iter 5 (move_x_fl fl64 tm (fl64 (2 # 10)) cb) (Player_init x0 y0))
  = fl64 (x0 + 1).
Proof.
  intro Hfree.
  assert (S1 : move_x_fl fl64 tm (fl64 (2 # 10)) cb (Player_init x0 y0)
               = mkPlayer x0 y0 (3602879701896397 # 18014398509481984) 0 0 0).
  { rewrite move_x_fl_zero by (vm_compute; reflexivity).
    unfold set_x_remainder, Player_init. cbn [x y x_remainder y_remainder vx vy].
    f_equal; try (vm_compute; reflexivity). }
  assert (S2 : move_x_fl fl64 tm (fl64 (2 # 10)) cb
                 (mkPlayer x0 y0 (3602879701896397 # 18014398509481984) 0 0 0)
               = mkPlayer x0 y0 (3602879701896397 # 9007199254740992) 0 0 0).
  { rewrite move_x_fl_zero by (vm_compute; reflexivity).
    unfold set_x_remainder. cbn [x y x_remainder y_remainder vx vy].
    f_equal; try (vm_compute; reflexivity). }
  assert (S3 : move_x_fl fl64 tm (fl64 (2 # 10)) cb
                 (mkPlayer x0 y0 (3602879701896397 # 9007199254740992) 0 0 0)
               = mkPlayer (fl64 (x0 + 1)) y0
                   (Qmake (-900719925474099) 2251799813685248) 0 0 0).
  { rewrite move_x_fl_one; [| vm_compute; reflexivity | exact Hfree].
    unfold set_x_remainder, set_x. cbn [x y x_remainder y_remainder vx vy].
    f_equal; try (vm_compute; reflexivity). }
  assert (S4 : move_x_fl fl64 tm (fl64 (2 # 10)) cb
                 (mkPlayer (fl64 (x0 + 1)) y0
                    (Qmake (-900719925474099) 2251799813685248) 0 0 0)
               = mkPlayer (fl64 (x0 + 1)) y0
                   (Qmake (-3602879701896395) 18014398509481984) 0 0 0).
  { rewrite move_x_fl_zero by (vm_compute; reflexivity).
    unfold set_x_remainder. cbn [x y x_remainder y_remainder vx vy].
    f_equal; try (vm_compute; reflexivity). }
  assert (S5 : x (move_x_fl fl64 tm (fl64 (2 # 10)) cb
                    (mkPlayer (fl64 (x0 + 1)) y0
                       (Qmake (-3602879701896395) 18014398509481984) 0 0 0))
               = fl64 (x0 + 1)).
  { rewrite move_x_fl_zero by (vm_compute; reflexivity). reflexivity. }
  cbn [Nat.iter nat_rect].
  rewrite S1, S2. split; [reflexivity |].
  rewrite S3. split; [reflexivity |].
  rewrite S4. exact S5.
Qed.

(** C5. Sub-pixel accumulation, as the code has it: a call adds the
    amount to the stored remainder and moves by the accumulated remainder
    rounded to the nearest integer.  Nothing moves, and the accumulated
    remainder is kept, while it rounds to 0, that is while it is within
    1/2 of zero; one pixel is stepped, if unobstructed, as soon as it
    rounds to 1 or -1, that is once it exceeds 1/2 in magnitude (and is
    below 3/2), and the remainder is then the accumulated one less that
    pixel.  This holds however the float operations round.  In binary64,
    five unobstructed calls of [move_x(0.2)] from a zero remainder move
    the actor by exactly one pixel in total, stepped on the third call. *)
Theorem subpixel_accumulation (fl : Q -> Q) (tm : Tilemap) (cb : Callback)
        (amount : Q) (p : Player) (x0 y0 : Q) :
  (round (fl (x_remainder p + amount)) = 0%Z <->
   - (1 # 2) <= fl (x_remainder p + amount) /\
   fl (x_remainder p + amount) <= 1 # 2) /\
  (round (fl (x_remainder p + amount)) = 1%Z <->
   1 # 2 < fl (x_remainder p + amount) /\
   fl (x_remainder p + amount) < 3 # 2) /\
  (round (fl (x_remainder p + amount)) = (-1)%Z <->
   - (3 # 2) < fl (x_remainder p + amount) /\
   fl (x_remainder p + amount) < - (1 # 2)) /\
  (round (fl (x_remainder p + amount)) = 0%Z ->
   move_x_fl fl tm amount cb p
   = set_x_remainder (fl (x_remainder p + amount)) p) /\
  (round (fl (x_remainder p + amount)) = 1%Z ->
   check_collision_fl fl tm (fl (x p + 1)) (y p) = false ->
   move_x_fl fl tm amount cb p
   = set_x (fl (x p + 1))
       (set_x_remainder (fl (fl (x_remainder p + amount) - 1)) p)) /\
  (round (fl (x_remainder p + amount)) = (-1)%Z ->
   check_collision_fl fl tm (fl (x p + inject_Z (-1))) (y p) = false ->
   move_x_fl fl tm amount cb p
   = set_x (fl (x p + inject_Z (-1)))
       (set_x_remainder
          (fl (fl (x_remainder p + amount) - inject_Z (-1))) p)) /\
  (check_collision_fl fl64 tm (fl64 (x0 + 1)) y0 = false ->
   x (Nat.iter 2 (move_x_fl fl64 tm (fl64 (2 # 10)) cb) (Player_init x0 y0))
     = x0 /\
   x (Nat.iter 3 (move_x_fl fl64 tm (fl64 (2 # 10)) cb) (Player_init x0 y0))
     = fl64 (x0 + 1) /\
   x (Nat.iter 5 (move_x_fl fl64 tm (fl64 (2 # 10)) cb) (Player_init x0 y0))
     = fl64 (x0 + 1)).
Proof.
  split; [apply round_zero_iff |].
  split; [apply round_one_iff |].
  split; [apply round_minus_one_iff |].
  split; [apply move_x_fl_zero |].
  split; [apply move_x_fl_one |].
  split; [apply move_x_fl_minus_one |].
  intro Hfree.
  destruct (five_calls_fl64 tm cb x0 y0 Hfree) as (H2 & H3 & H5).
  rewrite H2, H3. repeat split. exact H5.
Qed.

(** ** A zero amount *)

Lemma move_x_zero (tm : Tilemap) (cb : Callback) (p : Player) :
  - (1 # 2) <= x_remainder p -> x_remainder p <= 1 # 2 ->
  move_x tm 0 cb p = p.
Proof.
  intros Hlo Hhi. rewrite move_x_small by lra.
  apply set_x_remainder_zero.
Qed.

(** C6. Zero-delta idempotence: in a state reached by any sequence of
    [move_x] / [move_y] calls from zero remainders, any number of calls
    [move_x(0, cb)] leaves the whole object, its position included, as it
    was; this holds for every callback [cb], whatever it would do to the
    object, so [cb] is never invoked. *)
Theorem zero_delta_idempotent (tm : Tilemap) (calls : list MoveCall)
        (p0 : Player) (cb : Callback) (n : nat) :
  Forall call_ok calls ->
  x_remainder p0 == 0 -> y_remainder p0 == 0 ->
  Nat.iter n (move_x tm 0 cb) (run_calls tm calls p0) = run_calls tm calls p0.
Proof.
  intros Hok Hx Hy.
  destruct (run_calls_half tm calls p0 Hok (zero_half p0 Hx Hy)) as [[A B] _].
  induction n as [| n IH].
  - reflexivity.
  - change (Nat.iter (S n) (move_x tm 0 cb) (run_calls tm calls p0))
      with (move_x tm 0 cb (Nat.iter n (move_x tm 0 cb) (run_calls tm calls p0))).
    rewrite IH. now apply move_x_zero.
Qed.

(** ** Gravity and jump *)

Lemma Qlt_bool_true (a b : Q) : a < b -> Qlt_bool a b = true.
Proof.
  intro H. unfold Qlt_bool. destruct (Qcompare a b) eqn:E; try reflexivity.
  - apply Qeq_alt in E. lra.
  - apply Qgt_alt in E. lra.
Qed.

Lemma Qlt_bool_false (a b : Q) : b <= a -> Qlt_bool a b = false.
Proof.
  intro H. unfold Qlt_bool. destruct (Qcompare a b) eqn:E; try reflexivity.
  apply Qlt_alt in E. lra.
Qed.

Lemma apply_gravity_fl_rising (fl : Q -> Q) (p : Player) :
  vy p < 0 ->
  vy (apply_gravity_fl fl true p)
    = fl (vy p + fl (fl (GRAVITY_fl fl * fl (7 # 10)) * fl (6 # 10))) /\
  vy (apply_gravity_fl fl false p)
    = fl (vy p + fl (GRAVITY_fl fl * fl (7 # 10))).
Proof.
  intro H. unfold apply_gravity_fl. rewrite (Qlt_bool_true _ _ H).
  split; reflexivity.
Qed.

Lemma apply_gravity_fl_falling (fl : Q -> Q) (p : Player) (held : bool) :
  0 <= vy p ->
  vy (apply_gravity_fl fl held p) = fl (vy p + GRAVITY_fl fl).
Proof.
  intro H. unfold apply_gravity_fl. rewrite (Qlt_bool_false _ _ H).
  reflexivity.
Qed.

(** C7. Gravity tiers, as the code computes them: in the gravity step of
    [Player.update] the gravity to apply is [GRAVITY * 0.7 * 0.6],
    multiplied in that order, if [vy < 0] and the jump key is held,
    [GRAVITY * 0.7] if [vy < 0] and it is not held, and [GRAVITY] if
    [vy >= 0] whatever the key's state; [vy] becomes the sum of [vy] and
    it.  The literals, each product and the sum are rounded as floats, so
    the increase of [vy] is the stated product only up to rounding; in
    exact arithmetic the increases are exactly [0.6 * 0.7 * GRAVITY],
    [0.7 * GRAVITY] and [GRAVITY]. *)
Theorem gravity_tiers (fl : Q -> Q) (p : Player) (held : bool) :
  (vy p < 0 ->
   vy (apply_gravity_fl fl true p)
     = fl (vy p + fl (fl (GRAVITY_fl fl * fl (7 # 10)) * fl (6 # 10))) /\
   vy (apply_gravity_fl fl false p)
     = fl (vy p + fl (GRAVITY_fl fl * fl (7 # 10)))) /\
  (0 <= vy p ->
   vy (apply_gravity_fl fl held p) = fl (vy p + GRAVITY_fl fl)) /\
  (vy p < 0 ->
   vy (apply_gravity_fl (fun q => q) true p)
     == vy p + (6 # 10) * (7 # 10) * GRAVITY /\
   vy (apply_gravity_fl (fun q => q) false p)
     == vy p + (7 # 10) * GRAVITY) /\
  (0 <= vy p ->
   vy (apply_gravity_fl (fun q => q) held p) == vy p + GRAVITY).
Proof.
  split; [apply apply_gravity_fl_rising |].
  split; [apply apply_gravity_fl_falling |].
  split.
  - intro H.
    destruct (apply_gravity_fl_rising (fun q => q) p H) as [E1 E2].
    rewrite E1, E2. unfold GRAVITY_fl, GRAVITY. split; ring.
  - intro H. rewrite (apply_gravity_fl_falling (fun q => q) p held H).
    reflexivity.
Qed.

(** C7 as stated fails on floats.  Rising at [vy = -1] with the key held,
    the increase of [vy] is neither the real number [0.6 * 0.7 * 0.2] nor
    the float that [0.6 * 0.7 * GRAVITY] evaluates to, whether the
    increase is taken exactly or as the float difference; falling at
    [vy = 0.1] the float difference is not [GRAVITY]. *)
Lemma gravity_tiers_rounding_counterexample :
  ~ vy (apply_gravity_fl fl64 true (mkPlayer 0 0 0 0 0 (-1))) - (-1)
      == (6 # 10) * (7 # 10) * (2 # 10) /\
  ~ vy (apply_gravity_fl fl64 true (mkPlayer 0 0 0 0 0 (-1))) - (-1)
      == fl64 (fl64 (fl64 (6 # 10) * fl64 (7 # 10)) * fl64 (2 # 10)) /\
  ~ fl64 (vy (apply_gravity_fl fl64 true (mkPlayer 0 0 0 0 0 (-1))) - (-1))
      == fl64 (fl64 (fl64 (6 # 10) * fl64 (7 # 10)) * fl64 (2 # 10)) /\
  ~ fl64 (vy (apply_gravity_fl fl64 false (mkPlayer 0 0 0 0 0 (fl64 (1 # 10))))
          - fl64 (1 # 10))
      == fl64 (2 # 10).
Proof.
  repeat split; vm_compute; intro H; discriminate H.
Qed.


(** ** Whole-pixel positions *)

Lemma move_x_loop_steps (tm : Tilemap) (cb : Callback) (sign : Z) :
  cb_ok cb ->
  forall (pixels : nat) (p : Player),
    exists j : nat,
      (j <= pixels)%nat /\
      x (move_x_loop tm pixels sign cb p) = advance j sign (x p).
Proof.
  intros Hok. induction pixels as [| n IH]; intro p; simpl.
  - exists 0%nat. split; [lia | reflexivity].
  - destruct (check_collision tm (x p + inject_Z sign) (y p)).
    + exists 0%nat. destruct (call_keeps cb p Hok) as (H & _).
      split; [lia | exact H].
    + destruct (IH (set_x (x p + inject_Z sign) p)) as (j & Hj & E).
      exists (S j). split; [lia | exact E].
Qed.

Lemma move_y_loop_steps (tm : Tilemap) (cb : Callback) (sign : Z) :
  cb_ok cb ->
  forall (pixels : nat) (p : Player),
    exists j : nat,
      (j <= pixels)%nat /\
      y (move_y_loop tm pixels sign cb p) = advance j sign (y p).
Proof.
  intros Hok. induction pixels as [| n IH]; intro p; simpl.
  - exists 0%nat. split; [lia | reflexivity].
  - destruct (check_collision tm (x p) (y p + inject_Z sign)).
    + exists 0%nat. destruct (call_keeps cb p Hok) as (_ & H & _).
      split; [lia | exact H].
    + destruct (IH (set_y (y p + inject_Z sign) p)) as (j & Hj & E).
      exists (S j). split; [lia | exact E].
Qed.

Lemma sign_of_unit (move : Z) : sign_of move = 1%Z \/ sign_of move = (-1)%Z.
Proof. unfold sign_of. destruct (move >? 0)%Z; auto. Qed.

(** One call changes the coordinate of its axis by single-pixel steps of
    one sign, and leaves the other coordinate alone. *)
Lemma move_steps (tm : Tilemap) (ax : Axis) (amount : Q) (cb : Callback)
      (p : Player) :
  cb_ok cb ->
  exists (j : nat) (sign : Z),
    (sign = 1 \/ sign = -1)%Z /\
    coord ax (move tm ax amount cb p) = advance j sign (coord ax p) /\
    match ax with
    | AxisX => y (move tm ax amount cb p) = y p
    | AxisY => x (move tm ax amount cb p) = x p
    end.
Proof.
  intros Hok. destruct ax; simpl.
  - destruct (move_x_fields tm cb Hok amount p) as (Hy & _). 
    unfold move_x in *. simpl x_remainder in *.
    destruct (round (x_remainder p + amount) =? 0)%Z.
    + exists 0%nat, 1%Z. repeat split; auto.
    + match goal with |- context [move_x_loop tm ?n ?s cb ?q] =>
        destruct (move_x_loop_steps tm cb s Hok n q) as (j & _ & E) end.
      exists j, (sign_of (round (x_remainder p + amount))).
      split; [apply sign_of_unit | split; [exact E | exact Hy]].
  - destruct (move_y_fields tm cb Hok amount p) as (Hx & _).
    unfold move_y in *. simpl y_remainder in *.
    destruct (round (y_remainder p + amount) =? 0)%Z.
    + exists 0%nat, 1%Z. repeat split; auto.
    + match goal with |- context [move_y_loop tm ?n ?s cb ?q] =>
        destruct (move_y_loop_steps tm cb s Hok n q) as (j & _ & E) end.
      exists j, (sign_of (round (y_remainder p + amount))).
      split; [apply sign_of_unit | split; [exact E | exact Hx]].
Qed.

Lemma do_call_integer (tm : Tilemap) (c : MoveCall) (p : Player) :
  call_ok c -> is_integer (x p) -> is_integer (y p) ->
  is_integer (x (do_call tm c p)) /\ is_integer (y (do_call tm c p)).
Proof.
  intros Hok Hx Hy. destruct c as [amount cb | amount cb]; simpl in *.
  - destruct (move_x_fields tm cb Hok amount p) as (E & _).
    rewrite E. split; [now apply move_x_integer | exact Hy].
  - destruct (move_y_fields tm cb Hok amount p) as (E & _).
    rewrite E. split; [exact Hx | now apply move_y_integer].
Qed.

Lemma run_calls_integer (tm : Tilemap) (calls : list MoveCall) (p : Player) :
  Forall call_ok calls -> is_integer (x p) -> is_integer (y p) ->
  is_integer (x (run_calls tm calls p)) /\
  is_integer (y (run_calls tm calls p)).
Proof.
  revert p. induction calls as [| c calls IH]; intros p Hok Hx Hy; simpl.
  - split; assumption.
  - inversion Hok as [| c' calls' Hc Hcalls]; subst.
    destruct (do_call_integer tm c p Hc Hx Hy) as [Hx' Hy'].
    now apply IH.
Qed.

(** C10. Integer-position preservation: a move call changes the position
    only by single-pixel steps of +1 or -1 along its own axis, so an actor
    constructed at integer [x] and [y] has integer [x] and [y] after every
    sequence of [move_x] / [move_y] calls with arbitrary amounts (after
    the first [n] calls, for every [n]).  The callbacks are those that
    leave the actor's own fields alone. *)
Theorem integer_position (tm : Tilemap) (calls : list MoveCall)
        (x0 y0 : Q) (n : nat) :
  Forall call_ok calls ->
  is_integer x0 -> is_integer y0 ->
  (is_integer (x (run_calls tm (firstn n calls) (Player_init x0 y0))) /\
   is_integer (y (run_calls tm (firstn n calls) (Player_init x0 y0)))) /\
  (forall (ax : Axis) (amount : Q) (cb : Callback) (p : Player),
     cb_ok cb ->
     exists (j : nat) (sign : Z),
       (sign = 1 \/ sign = -1)%Z /\
       coord ax (move tm ax amount cb p) = advance j sign (coord ax p) /\
       match ax with
       | AxisX => y (move tm ax amount cb p) = y p
       | AxisY => x (move tm ax amount cb p) = x p
       end).
Proof.
  intros Hok Hx Hy. split.
  - apply run_calls_integer; [now apply Forall_firstn | exact Hx | exact Hy].
  - intros ax amount cb p Hcb. now apply move_steps.
Qed.

(** * The properties on a concrete level

    The actor stands at pixel (28, 24) of [level_map]: the wall of column 5
    begins at x = 40 and the floor of row 4 at y = 32. *)

Lemma on_horizontal_collision_keeps : keeps_actor on_horizontal_collision.
Proof. intro p. repeat split. Qed.

Lemma on_vertical_collision_keeps : keeps_actor on_vertical_collision.
Proof. intro p. repeat split. Qed.

(** At the integer position (28, 24) the binary64 sums are exact. *)
Lemma check_collision_contract_witness :
  check_collision_fl fl64 level_map 28 24 = true <->
  exists col row : Z,
    (Qfloor (28 / inject_Z TILE_SIZE) <= col
       <= Qfloor ((28 + inject_Z TILE_SIZE - 1) / inject_Z TILE_SIZE))%Z /\
    (Qfloor (24 / inject_Z TILE_SIZE) <= row
       <= Qfloor ((24 + inject_Z TILE_SIZE - 1) / inject_Z TILE_SIZE))%Z /\
    In (level_map col row) WALL_TILES.
Proof.
  apply (proj2 (proj2 (check_collision_contract fl64 level_map 28 24)));
    vm_compute; reflexivity.
Defined.

(** Moving right by 10 stops flush against the wall; moving down by 10
    stays on the floor. *)
Lemma no_tunneling_witness :
  check_collision level_map
    (x (move_x level_map 10 (Some on_horizontal_collision) (Player_init 28 24)))
    (y (move_x level_map 10 (Some on_horizontal_collision) (Player_init 28 24)))
    = false /\
  check_collision level_map
    (x (move_y level_map 10 (Some on_horizontal_collision) (Player_init 28 24)))
    (y (move_y level_map 10 (Some on_horizontal_collision) (Player_init 28 24)))
    = false.
Proof.
  apply (no_tunneling level_map 10 (Some on_horizontal_collision)
           (Player_init 28 24)).
  - exact on_horizontal_collision_keeps.
  - vm_compute. reflexivity.
Defined.

Lemma remainder_invariant_witness :
  (-1 < x_remainder
          (run_calls level_map
             (firstn 2 [MoveX (7 # 10) None;
                        MoveY (13 # 10) (Some on_vertical_collision);
                        MoveX (- (9 # 4)) (Some on_horizontal_collision)])
             (Player_init 28 24)) /\
   x_remainder
     (run_calls level_map
        (firstn 2 [MoveX (7 # 10) None;
                   MoveY (13 # 10) (Some on_vertical_collision);
                   MoveX (- (9 # 4)) (Some on_horizontal_collision)])
        (Player_init 28 24)) < 1) /\
  (-1 < y_remainder
          (run_calls level_map
             (firstn 2 [MoveX (7 # 10) None;
                        MoveY (13 # 10) (Some on_vertical_collision);
                        MoveX (- (9 # 4)) (Some on_horizontal_collision)])
             (Player_init 28 24)) /\
   y_remainder
     (run_calls level_map
        (firstn 2 [MoveX (7 # 10) None;
                   MoveY (13 # 10) (Some on_vertical_collision);
                   MoveX (- (9 # 4)) (Some on_horizontal_collision)])
        (Player_init 28 24)) < 1).
Proof.
  apply (remainder_invariant level_map
           [MoveX (7 # 10) None;
            MoveY (13 # 10) (Some on_vertical_collision);
            MoveX (- (9 # 4)) (Some on_horizontal_collision)]
           (Player_init 28 24) 2).
  - repeat constructor.
  - reflexivity.
  - reflexivity.
Defined.

Lemma remainder_half_bound_witness :
  (- (1 # 2) <=
     x_remainder
       (run_calls level_map
          (firstn 3 [MoveX (15 # 10) None;
                     MoveY (5 # 2) (Some on_vertical_collision);
                     MoveX (- (1 # 2)) (Some on_horizontal_collision)])
          (Player_init 28 24)) /\
   x_remainder
     (run_calls level_map
        (firstn 3 [MoveX (15 # 10) None;
                   MoveY (5 # 2) (Some on_vertical_collision);
                   MoveX (- (1 # 2)) (Some on_horizontal_collision)])
        (Player_init 28 24)) <= 1 # 2) /\
  (- (1 # 2) <=
     y_remainder
       (run_calls level_map
          (firstn 3 [MoveX (15 # 10) None;
                     MoveY (5 # 2) (Some on_vertical_collision);
                     MoveX (- (1 # 2)) (Some on_horizontal_collision)])
          (Player_init 28 24)) /\
   y_remainder
     (run_calls level_map
        (firstn 3 [MoveX (15 # 10) None;
                   MoveY (5 # 2) (Some on_vertical_collision);
                   MoveX (- (1 # 2)) (Some on_horizontal_collision)])
        (Player_init 28 24)) <= 1 # 2).
Proof.
  apply (remainder_half_bound level_map
           [MoveX (15 # 10) None;
            MoveY (5 # 2) (Some on_vertical_collision);
            MoveX (- (1 # 2)) (Some on_horizontal_collision)]
           (Player_init 28 24) 3).
  - repeat constructor.
  - reflexivity.
  - reflexivity.
Defined.


Lemma subpixel_accumulation_witness :
  x (Nat.iter 2 (move_x_fl fl64 empty_map (fl64 (2 # 10)) None)
       (Player_init 0 0)) = 0 /\
  x (Nat.iter 3 (move_x_fl fl64 empty_map (fl64 (2 # 10)) None)
       (Player_init 0 0)) = fl64 (0 + 1) /\
  x (Nat.iter 5 (move_x_fl fl64 empty_map (fl64 (2 # 10)) None)
       (Player_init 0 0)) = fl64 (0 + 1).
Proof.
  destruct (subpixel_accumulation fl64 empty_map None (fl64 (2 # 10))
              (Player_init 0 0) 0 0) as (_ & _ & _ & _ & _ & _ & H).
  apply H. vm_compute. reflexivity.
Defined.

(** C5 as stated fails: after two calls of [move_x(0.2)] the third one
    already steps the pixel, with an accumulated remainder of 0.6, below
    1, and leaves a remainder of -0.4; so it is in exact arithmetic and
    in binary64. *)
Lemma subpixel_threshold_counterexample :
  (x (run_calls empty_map (repeat (MoveX (2 # 10) None) 2) (Player_init 0 0))
     == 0 /\
   x_remainder
     (run_calls empty_map (repeat (MoveX (2 # 10) None) 2) (Player_init 0 0))
     == 4 # 10 /\
   x (run_calls empty_map (repeat (MoveX (2 # 10) None) 3) (Player_init 0 0))
     == 1 /\
   x_remainder
     (run_calls empty_map (repeat (MoveX (2 # 10) None) 3) (Player_init 0 0))
     == - (4 # 10) /\
   Qabs ((4 # 10) + (2 # 10)) < 1) /\
  (x (Nat.iter 2 (move_x_fl fl64 empty_map (fl64 (2 # 10)) None)
        (Player_init 0 0)) == 0 /\
   x (Nat.iter 3 (move_x_fl fl64 empty_map (fl64 (2 # 10)) None)
        (Player_init 0 0)) == 1 /\
   Qabs (fl64 (x_remainder
                 (Nat.iter 2 (move_x_fl fl64 empty_map (fl64 (2 # 10)) None)
                    (Player_init 0 0))
               + fl64 (2 # 10))) < 1) /\
  ~ steps_only_at_unit empty_map.
Proof.
  split; [| split].
  - repeat split; vm_compute; reflexivity.
  - repeat split; vm_compute; reflexivity.
  - intro H.
    specialize (H (2 # 10) (mkPlayer 0 0 (4 # 10) 0 0 0)).
    assert (C : 1 <= Qabs (x_remainder (mkPlayer 0 0 (4 # 10) 0 0 0) + (2 # 10))).
    { apply H.
      - reflexivity.
      - reflexivity.
      - vm_compute. discriminate.
      - vm_compute. discriminate.
      - vm_compute. discriminate. }
    vm_compute in C. apply C. reflexivity.
Qed.

Lemma zero_delta_idempotent_witness :
  Nat.iter 3 (move_x level_map 0 (Some (set_x 1000)))
    (run_calls level_map
       [MoveX (7 # 10) None; MoveY (13 # 10) (Some on_vertical_collision)]
       (Player_init 28 24))
  = run_calls level_map
      [MoveX (7 # 10) None; MoveY (13 # 10) (Some on_vertical_collision)]
      (Player_init 28 24).
Proof.
  apply (zero_delta_idempotent level_map
           [MoveX (7 # 10) None; MoveY (13 # 10) (Some on_vertical_collision)]
           (Player_init 28 24) (Some (set_x 1000)) 3).
  - repeat constructor.
  - reflexivity.
  - reflexivity.
Defined.

Lemma gravity_tiers_witness :
  vy (apply_gravity_fl fl64 true (mkPlayer 0 0 0 0 0 (-1)))
    = fl64 (vy (mkPlayer 0 0 0 0 0 (-1))
            + fl64 (fl64 (GRAVITY_fl fl64 * fl64 (7 # 10)) * fl64 (6 # 10))) /\
  vy (apply_gravity_fl fl64 false (mkPlayer 0 0 0 0 0 (-1)))
    = fl64 (vy (mkPlayer 0 0 0 0 0 (-1))
            + fl64 (GRAVITY_fl fl64 * fl64 (7 # 10))).
Proof.
  apply (proj1 (gravity_tiers fl64 (mkPlayer 0 0 0 0 0 (-1)) true)).
  reflexivity.
Defined.


Lemma integer_position_witness :
  (is_integer
     (x (run_calls level_map
           (firstn 2 [MoveX (37 # 10) None;
                      MoveY (- (26 # 10)) (Some on_vertical_collision)])
           (Player_init 28 24))) /\
   is_integer
     (y (run_calls level_map
           (firstn 2 [MoveX (37 # 10) None;
                      MoveY (- (26 # 10)) (Some on_vertical_collision)])
           (Player_init 28 24)))) /\
  (forall (ax : Axis) (amount : Q) (cb : Callback) (p : Player),
     cb_ok cb ->
     exists (j : nat) (sign : Z),
       (sign = 1 \/ sign = -1)%Z /\
       coord ax (move level_map ax amount cb p) = advance j sign (coord ax p) /\
       match ax with
       | AxisX => y (move level_map ax amount cb p) = y p
       | AxisY => x (move level_map ax amount cb p) = x p
       end).
Proof.
  apply (integer_position level_map
           [MoveX (37 # 10) None;
            MoveY (- (26 # 10)) (Some on_vertical_collision)]
           28 24 2).
  - repeat constructor.
  - reflexivity.
  - reflexivity.
Defined.

(** * Further properties of the movement *)

(** ** How a move call ends *)

Lemma round_inject_Z (n : Z) : round (inject_Z n) = n.
Proof.
  unfold round. rewrite Qfloor_Z.
  assert (C : Qcompare (inject_Z n - inject_Z n) (1 # 2) = Lt).
  { rewrite <- Qlt_alt. setoid_replace (inject_Z n - inject_Z n) with 0 by ring.
    reflexivity. }
  rewrite C. reflexivity.
Qed.



Lemma abs_nat_sign (step : Z) :
  (Z.of_nat (Z.abs_nat step) * sign_of step)%Z = step.
Proof.
  unfold sign_of. destruct (step >? 0)%Z eqn:E.
  - apply Z.gtb_lt in E. rewrite Zabs2Nat.id_abs. lia.
  - rewrite Z.gtb_ltb in E. apply Z.ltb_ge in E.
    rewrite Zabs2Nat.id_abs. lia.
Qed.

(** The stepping loop takes [k] clear steps and then either has no pixel
    left, or finds the next probe solid and ends in the callback. *)
Lemma move_x_loop_cases (tm : Tilemap) (cb : Callback) (sign : Z) :
  forall (pixels : nat) (p : Player),
    exists k : nat,
      (k <= pixels)%nat /\
      (forall j, (j < k)%nat ->
         check_collision tm (advance (S j) sign (x p)) (y p) = false) /\
      ((k = pixels /\
        move_x_loop tm pixels sign cb p = set_x (advance k sign (x p)) p) \/
       ((k < pixels)%nat /\
        check_collision tm (advance (S k) sign (x p)) (y p) = true /\
        move_x_loop tm pixels sign cb p
          = call cb (set_x (advance k sign (x p)) p))).
Proof.
  induction pixels as [| n IH]; intro p.
  - exists 0%nat. split; [lia | split; [intros j Hj; lia |]].
    left. split; [reflexivity |]. simpl. now rewrite set_x_same.
  - simpl move_x_loop.
    destruct (check_collision tm (x p + inject_Z sign) (y p)) eqn:E.
    + exists 0%nat. split; [lia | split; [intros j Hj; lia |]].
      right. split; [lia | split; [exact E |]]. simpl. now rewrite set_x_same.
    + destruct (IH (set_x (x p + inject_Z sign) p))
        as (k & Hk & Hclear & Hend).
      exists (S k). split; [lia | split].
      * intros j Hj. destruct j as [| j]; [exact E |].
        apply (Hclear j). lia.
      * destruct Hend as [[Hn Hres] | (Hlt & Hhit & Hres)].
        -- left. split; [lia | exact Hres].
        -- right. split; [lia | split; [exact Hhit | exact Hres]].
Qed.

Lemma move_y_loop_cases (tm : Tilemap) (cb : Callback) (sign : Z) :
  forall (pixels : nat) (p : Player),
    exists k : nat,
      (k <= pixels)%nat /\
      (forall j, (j < k)%nat ->
         check_collision tm (x p) (advance (S j) sign (y p)) = false) /\
      ((k = pixels /\
        move_y_loop tm pixels sign cb p = set_y (advance k sign (y p)) p) \/
       ((k < pixels)%nat /\
        check_collision tm (x p) (advance (S k) sign (y p)) = true /\
        move_y_loop tm pixels sign cb p
          = call cb (set_y (advance k sign (y p)) p))).
Proof.
  induction pixels as [| n IH]; intro p.
  - exists 0%nat. split; [lia | split; [intros j Hj; lia |]].
    left. split; [reflexivity |]. simpl. now rewrite set_y_same.
  - simpl move_y_loop.
    destruct (check_collision tm (x p) (y p + inject_Z sign)) eqn:E.
    + exists 0%nat. split; [lia | split; [intros j Hj; lia |]].
      right. split; [lia | split; [exact E |]]. simpl. now rewrite set_y_same.
    + destruct (IH (set_y (y p + inject_Z sign) p))
        as (k & Hk & Hclear & Hend).
      exists (S k). split; [lia | split].
      * intros j Hj. destruct j as [| j]; [exact E |].
        apply (Hclear j). lia.
      * destruct Hend as [[Hn Hres] | (Hlt & Hhit & Hres)].
        -- left. split; [lia | exact Hres].
        -- right. split; [lia | split; [exact Hhit | exact Hres]].
Qed.

Lemma move_zero_step (tm : Tilemap) (ax : Axis) (amount : Q) (cb : Callback)
      (p : Player) :
  round (remainder ax p + amount) = 0%Z ->
  move tm ax amount cb p = set_remainder ax (remainder ax p + amount) p.
Proof.
  intro H. destruct ax; simpl in *.
  - unfold move_x. simpl x_remainder. rewrite H. reflexivity.
  - unfold move_y. simpl y_remainder. rewrite H. reflexivity.
Qed.

Lemma move_cases (tm : Tilemap) (ax : Axis) (amount : Q) (cb : Callback)
      (p : Player) :
  round (remainder ax p + amount) <> 0%Z ->
  exists k : nat,
    (k <= Z.abs_nat (round (remainder ax p + amount)))%nat /\
    (forall j, (j < k)%nat ->
       probe tm ax
         (advance (S j) (sign_of (round (remainder ax p + amount)))
            (coord ax p)) p = false) /\
    ((k = Z.abs_nat (round (remainder ax p + amount)) /\
      move tm ax amount cb p = stepped ax amount k p) \/
     ((k < Z.abs_nat (round (remainder ax p + amount)))%nat /\
      probe tm ax
        (advance (S k) (sign_of (round (remainder ax p + amount)))
           (coord ax p)) p = true /\
      move tm ax amount cb p = call cb (stepped ax amount k p))).
Proof.
  intro Hstep. apply Z.eqb_neq in Hstep.
  destruct ax; unfold stepped; simpl in *.
  - unfold move_x. simpl x_remainder. rewrite Hstep.
    match goal with |- context [move_x_loop tm ?n ?s cb ?q] =>
      destruct (move_x_loop_cases tm cb s n q) as (k & Hk & Hclear & Hend) end.
    exists k. split; [exact Hk | split; [exact Hclear | exact Hend]].
  - unfold move_y. simpl y_remainder. rewrite Hstep.
    match goal with |- context [move_y_loop tm ?n ?s cb ?q] =>
      destruct (move_y_loop_cases tm cb s n q) as (k & Hk & Hclear & Hend) end.
    exists k. split; [exact Hk | split; [exact Hclear | exact Hend]].
Qed.

Lemma stepped_coord (ax : Axis) (amount : Q) (j : nat) (p : Player) :
  coord ax (stepped ax amount j p)
  = advance j (sign_of (round (remainder ax p + amount))) (coord ax p).
Proof. destruct ax; reflexivity. Qed.


Lemma coord_set_remainder (ax : Axis) (v : Q) (p : Player) :
  coord ax (set_remainder ax v p) = coord ax p.
Proof. destruct ax; reflexivity. Qed.






Lemma velocity_stepped (ax ax' : Axis) (amount : Q) (j : nat) (p : Player) :
  velocity ax' (stepped ax amount j p) = velocity ax' p.
Proof. destruct ax, ax'; reflexivity. Qed.

Lemma own_callback_effect (ax : Axis) (p : Player) :
  velocity ax (own_callback ax p) = 0 /\
  velocity (other ax) (own_callback ax p) = velocity (other ax) p /\
  coord ax (own_callback ax p) = coord ax p.
Proof. destruct ax; repeat split. Qed.

Lemma move_velocity_cases (tm : Tilemap) (ax : Axis) (amount : Q)
        (p : Player) :
  (coord ax (move tm ax amount (Some (own_callback ax)) p)
     == coord ax p + inject_Z (round (remainder ax p + amount)) ->
   velocity ax (move tm ax amount (Some (own_callback ax)) p)
     = velocity ax p) /\
  (~ coord ax (move tm ax amount (Some (own_callback ax)) p)
       == coord ax p + inject_Z (round (remainder ax p + amount)) ->
   velocity ax (move tm ax amount (Some (own_callback ax)) p) = 0) /\
  velocity (other ax) (move tm ax amount (Some (own_callback ax)) p)
    = velocity (other ax) p.
Proof.
  destruct (Z.eq_dec (round (remainder ax p + amount)) 0) as [Hz | Hnz].
  - rewrite (move_zero_step tm ax amount _ p Hz), Hz.
    split; [| split].
    + intros _. destruct ax; reflexivity.
    + intro Hne. exfalso. apply Hne. rewrite coord_set_remainder.
      change (inject_Z 0) with 0. ring.
    + destruct ax; reflexivity.
  - destruct (move_cases tm ax amount (Some (own_callback ax)) p Hnz)
      as (k & Hk & _ & [[Hn Hres] | (Hlt & _ & Hres)]); rewrite Hres.
    + split; [| split].
      * intros _. apply velocity_stepped.
      * intro Hne. exfalso. apply Hne.
        rewrite stepped_coord, advance_value. subst k.
        rewrite abs_nat_sign. reflexivity.
      * apply velocity_stepped.
    + simpl call.
      destruct (own_callback_effect ax (stepped ax amount k p))
        as (H0 & Hother & Hc).
      rewrite H0, Hother, Hc, velocity_stepped.
      split; [| split].
      * intro Heq. exfalso.
        rewrite stepped_coord, advance_value in Heq.
        assert (Hz : inject_Z
                       (Z.of_nat k * sign_of (round (remainder ax p + amount)))
                     == inject_Z (round (remainder ax p + amount))) by lra.
        unfold Qeq in Hz. simpl in Hz. rewrite !Z.mul_1_r in Hz.
        pose proof (abs_nat_sign (round (remainder ax p + amount))) as Hs.
        destruct (sign_of_unit (round (remainder ax p + amount))) as [E | E];
          rewrite E in *; lia.
      * intros _. reflexivity.
      * reflexivity.
Qed.


(** ** The cells a probe reads *)

Lemma floordiv_span (v : Q) :
  floordiv (v + inject_Z TILE_SIZE - 1) TILE_SIZE = floordiv v TILE_SIZE \/
  floordiv (v + inject_Z TILE_SIZE - 1) TILE_SIZE
    = (floordiv v TILE_SIZE + 1)%Z.
Proof.
  unfold floordiv. change (inject_Z TILE_SIZE) with 8.
  destruct (floor_bounds (v / 8)) as [Flo Fhi].
  destruct (floor_bounds ((v + 8 - 1) / 8)) as [Glo Ghi].
  assert (E : (v + 8 - 1) / 8 == v / 8 + (7 # 8)) by field.
  assert (H1 : inject_Z (Qfloor (v / 8))
               < inject_Z (Qfloor ((v + 8 - 1) / 8) + 1)).
  { rewrite inject_Z_plus. change (inject_Z 1) with 1. lra. }
  assert (H2 : inject_Z (Qfloor ((v + 8 - 1) / 8))
               < inject_Z (Qfloor (v / 8) + 2)).
  { rewrite inject_Z_plus. change (inject_Z 2) with 2. lra. }
  apply inject_Z_lt_inv in H1, H2. lia.
Qed.

Lemma floordiv_aligned (v : Q) (c : Z) :
  v == inject_Z (c * TILE_SIZE) ->
  floordiv v TILE_SIZE = c /\
  floordiv (v + inject_Z TILE_SIZE - 1) TILE_SIZE = c.
Proof.
  intro E. unfold floordiv. change (inject_Z TILE_SIZE) with 8.
  assert (Ev : v == inject_Z c * 8).
  { rewrite E, inject_Z_mult. reflexivity. }
  split; apply floor_unique.
  - setoid_replace (v / 8) with (inject_Z c) by (rewrite Ev; field). lra.
  - setoid_replace (v / 8) with (inject_Z c) by (rewrite Ev; field). lra.
  - setoid_replace ((v + 8 - 1) / 8) with (inject_Z c + (7 # 8))
      by (rewrite Ev; field). lra.
  - setoid_replace ((v + 8 - 1) / 8) with (inject_Z c + (7 # 8))
      by (rewrite Ev; field). lra.
Qed.

Lemma check_collision_corners (tm : Tilemap) (x y : Q) :
  check_collision tm x y =
    (is_wall (tm (floordiv x TILE_SIZE) (floordiv y TILE_SIZE))
     || is_wall (tm (floordiv (x + inject_Z TILE_SIZE - 1) TILE_SIZE)
                    (floordiv y TILE_SIZE))
     || is_wall (tm (floordiv x TILE_SIZE)
                    (floordiv (y + inject_Z TILE_SIZE - 1) TILE_SIZE))
     || is_wall (tm (floordiv (x + inject_Z TILE_SIZE - 1) TILE_SIZE)
                    (floordiv (y + inject_Z TILE_SIZE - 1) TILE_SIZE))).
Proof.
  pose proof (floordiv_span x) as Hx. pose proof (floordiv_span y) as Hy.
  apply eq_true_iff_eq. rewrite check_collision_true.
  rewrite !orb_true_iff, !is_wall_In. split.
  - intros (col & row & Hc & Hr & Hw).
    assert (Ec : col = floordiv x TILE_SIZE \/
                 col = floordiv (x + inject_Z TILE_SIZE - 1) TILE_SIZE) by lia.
    assert (Er : row = floordiv y TILE_SIZE \/
                 row = floordiv (y + inject_Z TILE_SIZE - 1) TILE_SIZE) by lia.
    destruct Ec as [Ec | Ec], Er as [Er | Er]; subst col row; tauto.
  - intros [[[Hw | Hw] | Hw] | Hw];
      eexists; eexists; (split; [| split; [| exact Hw]]); lia.
Qed.

(** X6. The box covers at most four tiles: at coordinates where the sums
    [x + TILE_SIZE - 1] and [y + TILE_SIZE - 1] are computed without
    rounding error (integer coordinates, for one), the box spans one or
    two columns and one or two rows, and the probe is true exactly when
    one of the four corner cells holds a wall tile. *)
Theorem probe_four_cells (fl : Q -> Q) (tm : Tilemap) (x y : Q) :
  fl (fl (x + inject_Z TILE_SIZE) - 1) == x + inject_Z TILE_SIZE - 1 ->
  fl (fl (y + inject_Z TILE_SIZE) - 1) == y + inject_Z TILE_SIZE - 1 ->
  (floordiv (fl (fl (x + inject_Z TILE_SIZE) - 1)) TILE_SIZE
     = floordiv x TILE_SIZE \/
   floordiv (fl (fl (x + inject_Z TILE_SIZE) - 1)) TILE_SIZE
     = (floordiv x TILE_SIZE + 1)%Z) /\
  (floordiv (fl (fl (y + inject_Z TILE_SIZE) - 1)) TILE_SIZE
     = floordiv y TILE_SIZE \/
   floordiv (fl (fl (y + inject_Z TILE_SIZE) - 1)) TILE_SIZE
     = (floordiv y TILE_SIZE + 1)%Z) /\
  check_collision_fl fl tm x y =
    (is_wall (tm (floordiv x TILE_SIZE) (floordiv y TILE_SIZE))
     || is_wall (tm (floordiv (fl (fl (x + inject_Z TILE_SIZE) - 1)) TILE_SIZE)
                    (floordiv y TILE_SIZE))
     || is_wall (tm (floordiv x TILE_SIZE)
                    (floordiv (fl (fl (y + inject_Z TILE_SIZE) - 1)) TILE_SIZE))
     || is_wall (tm (floordiv (fl (fl (x + inject_Z TILE_SIZE) - 1)) TILE_SIZE)
                    (floordiv (fl (fl (y + inject_Z TILE_SIZE) - 1)) TILE_SIZE))).
Proof.
  intros Hx Hy.
  rewrite (check_collision_fl_exact fl tm x y Hx Hy).
  rewrite (floordiv_eq _ _ TILE_SIZE Hx), (floordiv_eq _ _ TILE_SIZE Hy).
  split; [apply floordiv_span | split; [apply floordiv_span |]].
  apply check_collision_corners.
Qed.

Lemma check_collision_aligned (tm : Tilemap) (x y : Q) (c r : Z) :
  x == inject_Z (c * TILE_SIZE) -> y == inject_Z (r * TILE_SIZE) ->
  check_collision tm x y = is_wall (tm c r).
Proof.
  intros Hx Hy.
  destruct (floordiv_aligned x c Hx) as [X0 X1].
  destruct (floordiv_aligned y r Hy) as [Y0 Y1].
  rewrite check_collision_corners, X0, X1, Y0, Y1.
  now rewrite !orb_diag.
Qed.

(** X7. A tile-aligned box reads one tile: at the top-left pixel of cell
    [(c, r)] the probe is true exactly when that cell holds a wall tile,
    whatever the neighbouring cells hold. *)
Theorem probe_aligned (tm : Tilemap) (x y : Q) (c r : Z) :
  x == inject_Z (c * TILE_SIZE) -> y == inject_Z (r * TILE_SIZE) ->
  check_collision tm x y = is_wall (tm c r) /\
  (check_collision tm x y = true <-> In (tm c r) WALL_TILES).
Proof.
  intros Hx Hy. rewrite (check_collision_aligned tm x y c r Hx Hy).
  split; [reflexivity | apply is_wall_In].
Qed.

(** ** scan_map *)

Lemma tm_set_same (tm : Tilemap) (c r v : Z) : tm_set tm c r v c r = v.
Proof. unfold tm_set. now rewrite !Z.eqb_refl. Qed.

Lemma tm_set_other (tm : Tilemap) (c r v c' r' : Z) :
  (c', r') <> (c, r) -> tm_set tm c r v c' r' = tm c' r'.
Proof.
  intro H. unfold tm_set.
  destruct (c' =? c)%Z eqn:Ec; [| reflexivity].
  destruct (r' =? r)%Z eqn:Er; [| reflexivity].
  apply Z.eqb_eq in Ec, Er. subst. contradiction.
Qed.

Lemma cell_eq_dec (a b : Z * Z) : {a = b} + {a <> b}.
Proof. decide equality; apply Z.eq_dec. Qed.

Lemma sweep_cons (a : Z * Z) (cells : list (Z * Z)) (s : Player * Tilemap) :
  sweep (a :: cells) s = sweep cells (sweep_cell s a).
Proof. reflexivity. Qed.

Lemma sweep_app (l1 l2 : list (Z * Z)) (s : Player * Tilemap) :
  sweep (l1 ++ l2) s = sweep l2 (sweep l1 s).
Proof. unfold sweep. apply fold_left_app. Qed.

(** The program does what [sweep] does on the cells in scan order. *)
Lemma scan_map_columns_run (cy : Z) (cols : list Z) :
  forall (p : Player) (tm : Tilemap) (rest : Player -> TileIO Player),
    run_io (scan_map_columns cy cols p rest) tm
    = run_io (rest (fst (sweep (map (fun cx => (cx, cy)) cols) (p, tm))))
        (snd (sweep (map (fun cx => (cx, cy)) cols) (p, tm))).
Proof.
  induction cols as [| cx cols IH]; intros p tm rest.
  - reflexivity.
  - simpl map. rewrite sweep_cons. simpl run_io.
    unfold sweep_cell. simpl fst. simpl snd.
    destruct (tm cx cy =? PLAYER_TILE)%Z.
    + simpl run_io. rewrite IH. reflexivity.
    + rewrite IH. reflexivity.
Qed.

Lemma scan_map_rows_run (cols : list Z) (rows : list Z) :
  forall (p : Player) (tm : Tilemap),
    run_io (scan_map_rows rows cols p) tm = sweep (scan_cells rows cols) (p, tm).
Proof.
  induction rows as [| cy rows IH]; intros p tm.
  - reflexivity.
  - simpl scan_map_rows. rewrite scan_map_columns_run, IH.
    simpl scan_cells. rewrite sweep_app.
    now destruct (sweep (map (fun cx => (cx, cy)) cols) (p, tm)).
Qed.

Lemma scan_cells_In (width height c r : Z) :
  In (c, r) (scan_cells (range 0 height) (range 0 width))
  <-> in_area width height c r.
Proof.
  unfold scan_cells, in_area. rewrite in_flat_map. split.
  - intros (cy & Hcy & Hin). apply in_map_iff in Hin.
    destruct Hin as (cx & Heq & Hcx). inversion Heq; subst.
    apply range_In in Hcy, Hcx. lia.
  - intros [Hc Hr]. exists r. split; [apply range_In; lia |].
    apply in_map_iff. exists c. split; [reflexivity | apply range_In; lia].
Qed.

(** A sweep changes no cell that does not hold a player tile. *)
Lemma sweep_keep (cells : list (Z * Z)) :
  forall (p : Player) (tm : Tilemap) (c r : Z),
    tm c r <> PLAYER_TILE -> snd (sweep cells (p, tm)) c r = tm c r.
Proof.
  induction cells as [| [cx cy] cells IH]; intros p tm c r Hne.
  - reflexivity.
  - rewrite sweep_cons. unfold sweep_cell. simpl fst. simpl snd.
    destruct (tm cx cy =? PLAYER_TILE)%Z eqn:E.
    + apply Z.eqb_eq in E.
      assert (Hcell : (c, r) <> (cx, cy)) by (intro H; inversion H; subst; auto).
      rewrite IH; rewrite tm_set_other by exact Hcell; auto.
    + now apply IH.
Qed.

Lemma sweep_outside (cells : list (Z * Z)) :
  forall (p : Player) (tm : Tilemap) (c r : Z),
    ~ In (c, r) cells -> snd (sweep cells (p, tm)) c r = tm c r.
Proof.
  induction cells as [| [cx cy] cells IH]; intros p tm c r Hout.
  - reflexivity.
  - rewrite sweep_cons. unfold sweep_cell. simpl fst. simpl snd.
    assert (Hcell : (c, r) <> (cx, cy)) by (intro H; apply Hout; left; auto).
    assert (Hrest : ~ In (c, r) cells) by (intro H; apply Hout; right; auto).
    destruct (tm cx cy =? PLAYER_TILE)%Z.
    + rewrite IH by exact Hrest. now apply tm_set_other.
    + now apply IH.
Qed.

Lemma sweep_cleared (cells : list (Z * Z)) :
  forall (p : Player) (tm : Tilemap) (c r : Z),
    In (c, r) cells -> tm c r = PLAYER_TILE ->
    snd (sweep cells (p, tm)) c r = EMPTY_TILE.
Proof.
  induction cells as [| [cx cy] cells IH]; intros p tm c r Hin Hp.
  - contradiction.
  - rewrite sweep_cons. unfold sweep_cell. simpl fst. simpl snd.
    destruct (cell_eq_dec (c, r) (cx, cy)) as [Heq | Hne].
    + inversion Heq; subst cx cy. rewrite Hp, Z.eqb_refl.
      rewrite sweep_keep; rewrite tm_set_same; [reflexivity | discriminate].
    + destruct Hin as [Hin | Hin]; [congruence |].
      destruct (tm cx cy =? PLAYER_TILE)%Z.
      * apply IH; [exact Hin |]. now rewrite tm_set_other.
      * now apply IH.
Qed.

Lemma sweep_none (cells : list (Z * Z)) (p : Player) (tm : Tilemap) :
  (forall c r, In (c, r) cells -> tm c r <> PLAYER_TILE) ->
  sweep cells (p, tm) = (p, tm).
Proof.
  induction cells as [| [cx cy] cells IH]; intro Hno.
  - reflexivity.
  - rewrite sweep_cons. unfold sweep_cell. simpl fst. simpl snd.
    destruct (tm cx cy =? PLAYER_TILE)%Z eqn:E.
    + apply Z.eqb_eq in E. exfalso. apply (Hno cx cy); [left; reflexivity | exact E].
    + apply IH. intros c r Hin. apply Hno. now right.
Qed.

Lemma place_place (c r c' r' : Z) (p : Player) :
  place c r (place c' r' p) = place c r p.
Proof. reflexivity. Qed.

(** The player ends at a cell that held a player tile, if there is one. *)
Lemma sweep_found (cells : list (Z * Z)) :
  forall (p : Player) (tm : Tilemap),
    sweep cells (p, tm) = (p, tm) /\
    (forall c r, In (c, r) cells -> tm c r <> PLAYER_TILE) \/
    exists c r,
      In (c, r) cells /\ tm c r = PLAYER_TILE /\
      fst (sweep cells (p, tm)) = place c r p.
Proof.
  induction cells as [| [cx cy] cells IH]; intros p tm.
  - left. split; [reflexivity | intros c r []].
  - rewrite sweep_cons. unfold sweep_cell. simpl fst. simpl snd.
    destruct (tm cx cy =? PLAYER_TILE)%Z eqn:E.
    + apply Z.eqb_eq in E. right.
      destruct (IH (place cx cy p) (tm_set tm cx cy EMPTY_TILE))
        as [[Hsame Hno] | (c & r & Hin & Hp & Hres)].
      * exists cx, cy. rewrite Hsame. split; [left; reflexivity | auto].
      * exists c, r. split; [right; exact Hin |].
        destruct (cell_eq_dec (c, r) (cx, cy)) as [Heq | Hne].
        -- inversion Heq; subst. rewrite tm_set_same in Hp. discriminate.
        -- rewrite tm_set_other in Hp by exact Hne.
           split; [exact Hp |]. rewrite Hres. apply place_place.
    + apply Z.eqb_neq in E.
      destruct (IH p tm) as [[Hsame Hno] | (c & r & Hin & Hp & Hres)].
      * left. split; [exact Hsame |].
        intros c r [Heq | Hin]; [inversion Heq; subst; exact E | now apply Hno].
      * right. exists c, r. split; [right; exact Hin | auto].
Qed.

Lemma sweep_unique (cells : list (Z * Z)) :
  forall (p : Player) (tm : Tilemap) (c r : Z),
    In (c, r) cells -> tm c r = PLAYER_TILE ->
    (forall c' r', In (c', r') cells -> (c', r') <> (c, r) ->
                   tm c' r' <> PLAYER_TILE) ->
    fst (sweep cells (p, tm)) = place c r p.
Proof.
  induction cells as [| [cx cy] cells IH]; intros p tm c r Hin Hp Huniq.
  - contradiction.
  - rewrite sweep_cons. unfold sweep_cell. simpl fst. simpl snd.
    destruct (cell_eq_dec (cx, cy) (c, r)) as [Heq | Hne].
    + inversion Heq; subst cx cy. rewrite Hp, Z.eqb_refl.
      rewrite sweep_none; [reflexivity |].
      intros c' r' Hin'.
      destruct (cell_eq_dec (c', r') (c, r)) as [Heq' | Hne'].
      * inversion Heq'; subst. rewrite tm_set_same. discriminate.
      * rewrite tm_set_other by exact Hne'.
        apply Huniq; [right; exact Hin' | exact Hne'].
    + destruct Hin as [Hin | Hin]; [congruence |].
      assert (E : (tm cx cy =? PLAYER_TILE)%Z = false).
      { apply Z.eqb_neq. apply Huniq; [left; reflexivity | exact Hne]. }
      rewrite E. apply IH; [exact Hin | exact Hp |].
      intros c' r' Hin' Hne'. apply Huniq; [right; exact Hin' | exact Hne'].
Qed.

Lemma scan_map_run (width height : Z) (p : Player) (tm : Tilemap) :
  run_io (scan_map width height p) tm
  = sweep (scan_cells (range 0 height) (range 0 width)) (p, tm).
Proof. unfold scan_map. apply scan_map_rows_run. Qed.

(** X8. What [scan_map] does to the map: every player tile inside the
    scanned area becomes the empty tile, every other cell keeps its tile,
    and no cell changes between wall and not wall. *)
Theorem scan_map_clears_markers (width height : Z) (p : Player)
        (tm : Tilemap) (c r : Z) :
  (in_area width height c r -> tm c r = PLAYER_TILE ->
   snd (run_io (scan_map width height p) tm) c r = EMPTY_TILE) /\
  (~ in_area width height c r \/ tm c r <> PLAYER_TILE ->
   snd (run_io (scan_map width height p) tm) c r = tm c r) /\
  is_wall (snd (run_io (scan_map width height p) tm) c r) = is_wall (tm c r).
Proof.
  rewrite scan_map_run.
  assert (A : in_area width height c r -> tm c r = PLAYER_TILE ->
              snd (sweep (scan_cells (range 0 height) (range 0 width)) (p, tm))
                c r = EMPTY_TILE).
  { intros Hin Hp. apply sweep_cleared; [now apply scan_cells_In | exact Hp]. }
  assert (B : ~ in_area width height c r \/ tm c r <> PLAYER_TILE ->
              snd (sweep (scan_cells (range 0 height) (range 0 width)) (p, tm))
                c r = tm c r).
  { intros [Hout | Hne].
    - apply sweep_outside. now rewrite scan_cells_In.
    - now apply sweep_keep. }
  split; [exact A | split; [exact B |]].
  destruct (Z.eq_dec (tm c r) PLAYER_TILE) as [Hp | Hne].
  - assert (D : {in_area width height c r} + {~ in_area width height c r}).
    { unfold in_area.
      destruct (Z_le_dec 0 c), (Z_lt_dec c width), (Z_le_dec 0 r),
        (Z_lt_dec r height); (left; lia) || (right; lia). }
    destruct D as [Hin | Hout].
    + rewrite (A Hin Hp), Hp. reflexivity.
    + rewrite B by (left; exact Hout). reflexivity.
  - rewrite B by (right; exact Hne). reflexivity.
Qed.

(** X9. With no player tile in the scanned area [scan_map] changes
    nothing: the player keeps the position it was constructed with and the
    map is the one it was. *)
Theorem scan_map_no_marker (width height : Z) (p : Player) (tm : Tilemap) :
  (forall c r, in_area width height c r -> tm c r <> PLAYER_TILE) ->
  run_io (scan_map width height p) tm = (p, tm).
Proof.
  intro Hno. rewrite scan_map_run. apply sweep_none.
  intros c r Hin. apply Hno. now apply scan_cells_In.
Qed.

(** X10. With exactly one player tile in the scanned area, at cell
    [(c, r)], [scan_map] puts the player at pixel
    [(c * TILE_SIZE, r * TILE_SIZE)] and changes nothing else of it. *)
Theorem scan_map_unique_marker (width height : Z) (p : Player) (tm : Tilemap)
        (c r : Z) :
  in_area width height c r -> tm c r = PLAYER_TILE ->
  (forall c' r', in_area width height c' r' -> (c', r') <> (c, r) ->
                 tm c' r' <> PLAYER_TILE) ->
  fst (run_io (scan_map width height p) tm)
  = mkPlayer (inject_Z (c * TILE_SIZE)) (inject_Z (r * TILE_SIZE))
      (x_remainder p) (y_remainder p) (vx p) (vy p).
Proof.
  intros Hin Hp Huniq. rewrite scan_map_run.
  rewrite (sweep_unique _ p tm c r).
  - reflexivity.
  - now apply scan_cells_In.
  - exact Hp.
  - intros c' r' Hin' Hne. apply Huniq; [now apply scan_cells_In | exact Hne].
Qed.

Lemma game_init_found (width height : Z) (tm : Tilemap) :
  (exists c r, in_area width height c r /\ tm c r = PLAYER_TILE) ->
  exists c r,
    in_area width height c r /\ tm c r = PLAYER_TILE /\
    fst (run_io (Game_init width height) tm)
    = place c r (Player_init (inject_Z W / 2) (inject_Z H / 2)).
Proof.
  intros (c0 & r0 & Hin0 & Hp0). unfold Game_init. rewrite scan_map_run.
  destruct (sweep_found (scan_cells (range 0 height) (range 0 width))
              (Player_init (inject_Z W / 2) (inject_Z H / 2)) tm)
    as [[_ Hno] | (c & r & Hin & Hp & Hres)].
  - exfalso. apply (Hno c0 r0); [now apply scan_cells_In | exact Hp0].
  - exists c, r. split; [now apply scan_cells_In | split; [exact Hp | exact Hres]].
Qed.

Lemma game_init_clear (width height : Z) (tm : Tilemap) :
  (exists c r, in_area width height c r /\ tm c r = PLAYER_TILE) ->
  check_collision (snd (run_io (Game_init width height) tm))
    (x (fst (run_io (Game_init width height) tm)))
    (y (fst (run_io (Game_init width height) tm))) = false.
Proof.
  intro Hex. destruct (game_init_found width height tm Hex)
    as (c & r & Hin & Hp & Hres).
  rewrite Hres.
  rewrite (check_collision_aligned _ _ _ c r) by reflexivity.
  unfold Game_init. rewrite scan_map_run.
  rewrite sweep_cleared; [reflexivity | now apply scan_cells_In | exact Hp].
Qed.

(** X11. The game starts clear of walls: when the scanned area holds a
    player tile, after [Game.__init__] the player stands tile-aligned on a
    cell that held a player tile, with zero remainders and velocity, and
    its box overlaps no wall tile of the map as [scan_map] left it. *)
Theorem game_starts_clear (width height : Z) (tm : Tilemap) :
  (exists c r, in_area width height c r /\ tm c r = PLAYER_TILE) ->
  (exists c r,
     in_area width height c r /\ tm c r = PLAYER_TILE /\
     fst (run_io (Game_init width height) tm)
     = mkPlayer (inject_Z (c * TILE_SIZE)) (inject_Z (r * TILE_SIZE))
         0 0 0 0) /\
  check_collision (snd (run_io (Game_init width height) tm))
    (x (fst (run_io (Game_init width height) tm)))
    (y (fst (run_io (Game_init width height) tm))) = false.
Proof.
  intro Hex. split; [| now apply game_init_clear].
  destruct (game_init_found width height tm Hex) as (c & r & Hin & Hp & Hres).
  exists c, r. split; [exact Hin | split; [exact Hp |]].
  rewrite Hres. reflexivity.
Qed.

(** ** Player.update *)

Lemma apply_gravity_actor (held : bool) (p : Player) :
  x (apply_gravity held p) = x p /\ y (apply_gravity held p) = y p /\
  x_remainder (apply_gravity held p) = x_remainder p /\
  y_remainder (apply_gravity held p) = y_remainder p /\
  vx (apply_gravity held p) = vx p.
Proof. repeat split. Qed.

Lemma jump_actor (tm : Tilemap) (p : Player) :
  x (jump tm p) = x p /\ y (jump tm p) = y p /\
  x_remainder (jump tm p) = x_remainder p /\
  y_remainder (jump tm p) = y_remainder p /\
  vx (jump tm p) = vx p.
Proof.
  unfold jump.
  destruct (check_collision tm (x p) (y p + inject_Z TILE_SIZE));
    repeat split.
Qed.

(** [update] is the two moves, then the velocity for the next frame. *)
Lemma update_unfold (tm : Tilemap) (keys : Keys) (p : Player) :
  update tm keys p =
  (if up_pressed keys then jump tm else fun q => q)
    (apply_gravity (up_held keys)
       (set_vx (btni (right_held keys) - btni (left_held keys)) (moved tm p))).
Proof. unfold update, moved. destruct (up_pressed keys); reflexivity. Qed.

Lemma update_actor (tm : Tilemap) (keys : Keys) (p : Player) :
  x (update tm keys p) = x (moved tm p) /\
  y (update tm keys p) = y (moved tm p) /\
  x_remainder (update tm keys p) = x_remainder (moved tm p) /\
  y_remainder (update tm keys p) = y_remainder (moved tm p) /\
  vx (update tm keys p) = btni (right_held keys) - btni (left_held keys).
Proof.
  rewrite update_unfold. generalize (moved tm p). intro q.
  destruct (up_pressed keys).
  - match goal with |- context [jump tm ?q'] =>
      destruct (jump_actor tm q') as (H1 & H2 & H3 & H4 & H5) end.
    rewrite H1, H2, H3, H4, H5. repeat split.
  - repeat split.
Qed.

Lemma moved_clear (tm : Tilemap) (p : Player) :
  check_collision tm (x p) (y p) = false ->
  check_collision tm (x (moved tm p)) (y (moved tm p)) = false.
Proof.
  intro H. unfold moved.
  apply move_y_clear; [exact on_vertical_collision_keeps |].
  apply move_x_clear; [exact on_horizontal_collision_keeps | exact H].
Qed.

Lemma moved_fields (tm : Tilemap) (p : Player) :
  x (moved tm p) = x (move_x tm (vx p) (Some on_horizontal_collision) p) /\
  y (move_x tm (vx p) (Some on_horizontal_collision) p) = y p /\
  x_remainder (moved tm p)
    == x_remainder p + vx p - inject_Z (round (x_remainder p + vx p)) /\
  y_remainder (moved tm p)
    == y_remainder p + vy (move_x tm (vx p) (Some on_horizontal_collision) p)
       - inject_Z
           (round
              (y_remainder p
               + vy (move_x tm (vx p) (Some on_horizontal_collision) p))) /\
  vy (move_x tm (vx p) (Some on_horizontal_collision) p) = vy p.
Proof.
  unfold moved.
  destruct (move_x_fields tm (Some on_horizontal_collision)
              on_horizontal_collision_keeps (vx p) p) as (Hy & Hxr & Hyr).
  destruct (move_y_fields tm (Some on_vertical_collision)
              on_vertical_collision_keeps
              (vy (move_x tm (vx p) (Some on_horizontal_collision) p))
              (move_x tm (vx p) (Some on_horizontal_collision) p))
    as (Hx' & Hxr' & Hyr').
  pose proof (move_velocity_cases tm AxisX (vx p) p) as (_ & _ & Hvy).
  simpl in Hvy.
  rewrite Hx', Hxr', Hyr', Hxr, Hyr. repeat split; auto; reflexivity.
Qed.

(** X12. The horizontal velocity comes from the keys alone: after
    [update], [vx] is 1 when only right is held, -1 when only left is
    held and 0 when both or neither are, whatever the velocity was and
    whether or not the frame's horizontal move hit a wall. *)
Theorem update_vx_from_keys (tm : Tilemap) (keys : Keys) (p : Player) :
  vx (update tm keys p) == inject_Z
    (match right_held keys, left_held keys with
     | true, false => 1
     | false, true => -1
     | _, _ => 0
     end).
Proof.
  destruct (update_actor tm keys p) as (_ & _ & _ & _ & Hvx).
  rewrite Hvx. destruct (right_held keys), (left_held keys); reflexivity.
Qed.

Lemma update_clear (tm : Tilemap) (keys : Keys) (p : Player) :
  check_collision tm (x p) (y p) = false ->
  check_collision tm (x (update tm keys p)) (y (update tm keys p)) = false.
Proof.
  intro H. destruct (update_actor tm keys p) as (Hx & Hy & _).
  rewrite Hx, Hy. now apply moved_clear.
Qed.

Lemma run_frames_clear (tm : Tilemap) (frames : list Keys) :
  forall p,
    check_collision tm (x p) (y p) = false ->
    check_collision tm (x (run_frames tm frames p)) (y (run_frames tm frames p))
    = false.
Proof.
  induction frames as [| keys frames IH]; intros p H.
  - exact H.
  - simpl. apply IH. now apply update_clear.
Qed.

(** X13. Frame after frame the player never overlaps a wall: if its box
    is clear of wall tiles, it is clear after any number of [update]
    calls, whatever keys each frame reads. *)
Theorem frames_never_overlap (tm : Tilemap) (frames : list Keys) (p : Player)
        (n : nat) :
  check_collision tm (x p) (y p) = false ->
  check_collision tm
    (x (run_frames tm (firstn n frames) p))
    (y (run_frames tm (firstn n frames) p)) = false.
Proof. intro H. apply run_frames_clear. exact H. Qed.

Lemma round_of_integer (q : Q) (n : Z) : q == inject_Z n -> round q = n.
Proof. intro E. rewrite (round_eq q (inject_Z n) E). apply round_inject_Z. Qed.

Lemma update_on_pixels (tm : Tilemap) (keys : Keys) (p : Player) :
  on_pixels p -> on_pixels (update tm keys p).
Proof.
  intros (Hx & Hy & Hxr & Hvx & Hyr).
  destruct (update_actor tm keys p) as (Ex & Ey & Exr & Eyr & Evx).
  destruct (moved_fields tm p) as (Mx & My & Mxr & Myr & Mvy).
  unfold on_pixels. rewrite Ex, Ey, Exr, Eyr, Evx.
  split; [| split; [| split; [| split]]].
  - rewrite Mx. apply move_x_integer;
      [exact on_horizontal_collision_keeps | exact Hx].
  - unfold moved. apply move_y_integer;
      [exact on_vertical_collision_keeps |]. rewrite My. exact Hy.
  - rewrite Mxr. apply is_integer_iff in Hvx. destruct Hvx as [n Hn].
    assert (E : x_remainder p + vx p == inject_Z n) by (rewrite Hxr, Hn; ring).
    rewrite (round_of_integer _ n E). rewrite E. ring.
  - destruct (right_held keys), (left_held keys); reflexivity.
  - rewrite Myr. apply round_near.
Qed.

Lemma run_frames_on_pixels (tm : Tilemap) (frames : list Keys) :
  forall p, on_pixels p -> on_pixels (run_frames tm frames p).
Proof.
  induction frames as [| keys frames IH]; intros p H.
  - exact H.
  - simpl. apply IH. now apply update_on_pixels.
Qed.

(** X14. The game runs on whole pixels: from a player at integer [x] and
    [y] with no horizontal remainder, an integer horizontal velocity and a
    vertical remainder within one half of zero, every frame ends with
    integer [x] and [y], a zero [x_remainder] (horizontal motion never
    leaves a sub-pixel part) and a [y_remainder] within one half of
    zero. *)
Theorem frames_on_whole_pixels (tm : Tilemap) (frames : list Keys)
        (p : Player) (n : nat) :
  is_integer (x p) -> is_integer (y p) ->
  x_remainder p == 0 -> is_integer (vx p) ->
  - (1 # 2) <= y_remainder p -> y_remainder p <= 1 # 2 ->
  is_integer (x (run_frames tm (firstn n frames) p)) /\
  is_integer (y (run_frames tm (firstn n frames) p)) /\
  x_remainder (run_frames tm (firstn n frames) p) == 0 /\
  - (1 # 2) <= y_remainder (run_frames tm (firstn n frames) p) /\
  y_remainder (run_frames tm (firstn n frames) p) <= 1 # 2.
Proof.
  intros Hx Hy Hxr Hvx Hlo Hhi.
  destruct (run_frames_on_pixels tm (firstn n frames) p)
    as (A & B & C & _ & D & E).
  - unfold on_pixels. repeat split; assumption.
  - repeat split; assumption.
Qed.


(** ** Jump and gravity inside a frame *)

Lemma Qfloor_upper (q : Q) (n : Z) : q < inject_Z n + 1 -> (Qfloor q <= n)%Z.
Proof.
  intro H. destruct (floor_bounds q) as [Flo _].
  assert (L : inject_Z (Qfloor q) < inject_Z (n + 1)).
  { rewrite inject_Z_plus. change (inject_Z 1) with 1. lra. }
  apply inject_Z_lt_inv in L. lia.
Qed.

Lemma Qfloor_lower (q : Q) (n : Z) : inject_Z n <= q -> (n <= Qfloor q)%Z.
Proof.
  intro H. destruct (floor_bounds q) as [_ Fhi].
  assert (L : inject_Z n < inject_Z (Qfloor q + 1)).
  { rewrite inject_Z_plus. change (inject_Z 1) with 1. lra. }
  apply inject_Z_lt_inv in L. lia.
Qed.

(** X16. The reach of a jump: [jump()] takes effect whenever a wall tile
    in the player's columns lies within the tile-high box under its feet,
    that is when the top of that tile is level with the feet (the player
    rests on it) or up to 7 pixels below them. *)
Theorem jump_reach (tm : Tilemap) (p : Player) (col row : Z) :
  In (tm col row) WALL_TILES ->
  (floordiv (x p) TILE_SIZE <= col
     <= floordiv (x p + inject_Z TILE_SIZE - 1) TILE_SIZE)%Z ->
  inject_Z (row * TILE_SIZE) - 15 <= y p ->
  y p <= inject_Z (row * TILE_SIZE) - 8 ->
  vy (jump tm p) = - JUMP_POWER.
Proof.
  intros Hwall Hcol Hlo Hhi. unfold jump.
  assert (Hprobe : check_collision tm (x p) (y p + inject_Z TILE_SIZE) = true).
  { apply check_collision_true. exists col, row.
    split; [exact Hcol | split; [| exact Hwall]].
    rewrite inject_Z_mult in Hlo, Hhi.
    unfold floordiv. change (inject_Z TILE_SIZE) with 8 in *. split.
    - apply Qfloor_upper.
      setoid_replace ((y p + 8) / 8) with (y p * (1 # 8) + 1) by field. lra.
    - apply Qfloor_lower.
      setoid_replace ((y p + 8 + 8 - 1) / 8) with (y p * (1 # 8) + (15 # 8))
        by field.
      lra. }
  rewrite Hprobe. reflexivity.
Qed.


(** ** Binary64 rounding is monotone *)

Lemma pow2_pos (e : Z) : 0 < pow2 e.
Proof. unfold pow2. apply Qpower_0_lt. reflexivity. Qed.

Lemma pow2_plus (a b : Z) : pow2 (a + b) == pow2 a * pow2 b.
Proof. unfold pow2. apply Qpower_plus. discriminate. Qed.

Lemma pow2_succ (a : Z) : pow2 (a + 1) == 2 * pow2 a.
Proof. rewrite pow2_plus. change (pow2 1) with 2. ring. Qed.

Lemma pow2_le (a b : Z) : (a <= b)%Z -> pow2 a <= pow2 b.
Proof. intro H. unfold pow2. apply Qpower_le_compat_l; [exact H | discriminate]. Qed.

Lemma pow2_inject (a : Z) : (0 <= a)%Z -> pow2 a == inject_Z (2 ^ a).
Proof. intro H. unfold pow2. rewrite (Zpower_Qpower 2 a H). reflexivity. Qed.

Lemma ilog2_spec (q : Q) :
  0 < q -> pow2 (ilog2 q) <= q /\ q < pow2 (ilog2 q + 1).
Proof.
  intro Hq. destruct q as [n d]. unfold ilog2. cbn [Qnum Qden].
  assert (Hn : (0 < n)%Z).
  { unfold Qlt in Hq. simpl in Hq. lia. }
  set (a := Z.log2 n). set (b := Z.log2 (Z.pos d)).
  assert (Ha : (0 <= a)%Z) by apply Z.log2_nonneg.
  assert (Hb : (0 <= b)%Z) by apply Z.log2_nonneg.
  destruct (Z.log2_spec n Hn) as [La Ua]. fold a in La, Ua.
  destruct (Z.log2_spec (Z.pos d) (Pos2Z.is_pos d)) as [Lb Ub]. fold b in Lb, Ub.
  assert (QA1 : pow2 a <= inject_Z n).
  { rewrite (pow2_inject a Ha). rewrite <- Zle_Qle. exact La. }
  assert (QA2 : inject_Z n < 2 * pow2 a).
  { rewrite <- pow2_succ. rewrite (pow2_inject (a + 1)) by lia.
    rewrite <- Zlt_Qlt. exact Ua. }
  assert (QB1 : pow2 b <= inject_Z (Z.pos d)).
  { rewrite (pow2_inject b Hb). rewrite <- Zle_Qle. exact Lb. }
  assert (QB2 : inject_Z (Z.pos d) < 2 * pow2 b).
  { rewrite <- pow2_succ. rewrite (pow2_inject (b + 1)) by lia.
    rewrite <- Zlt_Qlt. exact Ub. }
  assert (E : pow2 (a - b) * pow2 b == pow2 a).
  { rewrite <- pow2_plus. replace (a - b + b)%Z with a by lia. reflexivity. }
  assert (Q : (n # d) * inject_Z (Z.pos d) == inject_Z n).
  { unfold Qeq, Qmult, inject_Z. simpl. lia. }
  pose proof (pow2_pos a) as PA. pose proof (pow2_pos b) as PB.
  pose proof (pow2_pos (a - b)) as PE.
  destruct (Qle_bool (pow2 (a - b)) (n # d)) eqn:C.
  - apply Qle_bool_iff in C. split; [exact C |].
    rewrite pow2_succ. nra.
  - assert (C' : n # d < pow2 (a - b)).
    { apply Qnot_le_lt. intro H. apply Qle_bool_iff in H. congruence. }
    replace (a - b - 1 + 1)%Z with (a - b)%Z by lia. split; [| exact C'].
    assert (H2 : pow2 (a - b) == 2 * pow2 (a - b - 1)).
    { replace (a - b)%Z with (a - b - 1 + 1)%Z at 1 by lia. apply pow2_succ. }
    pose proof (pow2_pos (a - b - 1)) as PE1.
    nra.
Qed.

Lemma ilog2_le (a b : Q) : 0 < a -> a <= b -> (ilog2 a <= ilog2 b)%Z.
Proof.
  intros Ha Hab.
  destruct (ilog2_spec a Ha) as [La Ua].
  destruct (ilog2_spec b ltac:(lra)) as [Lb Ub].
  destruct (Z_le_gt_dec (ilog2 a) (ilog2 b)) as [H | H]; [exact H |].
  exfalso. pose proof (pow2_le (ilog2 b + 1) (ilog2 a) ltac:(lia)). lra.
Qed.

Lemma round_le (a b : Q) : a <= b -> (round a <= round b)%Z.
Proof.
  intro H. destruct (Z_le_gt_dec (round a) (round b)) as [L | G]; [exact L |].
  exfalso.
  pose proof (round_near a) as [A1 A2]. pose proof (round_near b) as [B1 B2].
  assert (G' : inject_Z (round b + 1) <= inject_Z (round a)).
  { rewrite <- Zle_Qle. lia. }
  rewrite inject_Z_plus in G'. change (inject_Z 1) with 1 in G'.
  assert (E : a == b) by lra.
  rewrite (round_eq a b E) in G. lia.
Qed.

Lemma fl64_value (q : Q) :
  ~ q == 0 ->
  fl64 q == inject_Z (round (q / pow2 (Z.max (ilog2 (Qabs q) - 52) (-1074))))
            * pow2 (Z.max (ilog2 (Qabs q) - 52) (-1074)).
Proof.
  intro H. unfold fl64.
  destruct (Qeq_bool q 0) eqn:E.
  - apply Qeq_bool_iff in E. contradiction.
  - apply Qred_correct.
Qed.

Lemma fl64_zero (q : Q) : q == 0 -> fl64 q = 0.
Proof.
  intro H. unfold fl64. apply Qeq_bool_iff in H. now rewrite H.
Qed.

(** A value rounded on the grid of step [2^e] stays on its side of a
    power of two that lies on the grid. *)
Lemma scaled_le (q : Q) (e k : Z) :
  (0 <= k - e)%Z -> q <= pow2 k ->
  inject_Z (round (q / pow2 e)) * pow2 e <= pow2 k.
Proof.
  intros Hk Hq. pose proof (pow2_pos e) as Pe.
  assert (E : pow2 k == inject_Z (2 ^ (k - e)) * pow2 e).
  { rewrite <- (pow2_inject (k - e) Hk), <- pow2_plus.
    replace (k - e + e)%Z with k by lia. reflexivity. }
  assert (R : (round (q / pow2 e) <= 2 ^ (k - e))%Z).
  { rewrite <- (round_inject_Z (2 ^ (k - e))). apply round_le.
    apply Qle_shift_div_r; [exact Pe |]. rewrite <- E. exact Hq. }
  rewrite E. apply Qmult_le_compat_r; [| lra].
  rewrite <- Zle_Qle. exact R.
Qed.

Lemma scaled_ge (q : Q) (e k : Z) :
  (0 <= k - e)%Z -> pow2 k <= q ->
  pow2 k <= inject_Z (round (q / pow2 e)) * pow2 e.
Proof.
  intros Hk Hq. pose proof (pow2_pos e) as Pe.
  assert (E : pow2 k == inject_Z (2 ^ (k - e)) * pow2 e).
  { rewrite <- (pow2_inject (k - e) Hk), <- pow2_plus.
    replace (k - e + e)%Z with k by lia. reflexivity. }
  assert (R : (2 ^ (k - e) <= round (q / pow2 e))%Z).
  { rewrite <- (round_inject_Z (2 ^ (k - e))) at 1. apply round_le.
    apply Qle_shift_div_l; [exact Pe |]. rewrite <- E. exact Hq. }
  rewrite E. apply Qmult_le_compat_r; [| lra].
  rewrite <- Zle_Qle. exact R.
Qed.

Lemma scaled_le_neg (q : Q) (e k : Z) :
  (0 <= k - e)%Z -> q <= - pow2 k ->
  inject_Z (round (q / pow2 e)) * pow2 e <= - pow2 k.
Proof.
  intros Hk Hq. pose proof (pow2_pos e) as Pe.
  assert (E : - pow2 k == inject_Z (- 2 ^ (k - e)) * pow2 e).
  { rewrite inject_Z_opp, <- (pow2_inject (k - e) Hk).
    setoid_replace (- pow2 (k - e) * pow2 e) with (- (pow2 (k - e) * pow2 e))
      by ring.
    rewrite <- pow2_plus. replace (k - e + e)%Z with k by lia. reflexivity. }
  assert (R : (round (q / pow2 e) <= - 2 ^ (k - e))%Z).
  { rewrite <- (round_inject_Z (- 2 ^ (k - e))). apply round_le.
    apply Qle_shift_div_r; [exact Pe |]. rewrite <- E. exact Hq. }
  rewrite E. apply Qmult_le_compat_r; [| lra].
  rewrite <- Zle_Qle. exact R.
Qed.

Lemma scaled_ge_neg (q : Q) (e k : Z) :
  (0 <= k - e)%Z -> - pow2 k <= q ->
  - pow2 k <= inject_Z (round (q / pow2 e)) * pow2 e.
Proof.
  intros Hk Hq. pose proof (pow2_pos e) as Pe.
  assert (E : - pow2 k == inject_Z (- 2 ^ (k - e)) * pow2 e).
  { rewrite inject_Z_opp, <- (pow2_inject (k - e) Hk).
    setoid_replace (- pow2 (k - e) * pow2 e) with (- (pow2 (k - e) * pow2 e))
      by ring.
    rewrite <- pow2_plus. replace (k - e + e)%Z with k by lia. reflexivity. }
  assert (R : (- 2 ^ (k - e) <= round (q / pow2 e))%Z).
  { rewrite <- (round_inject_Z (- 2 ^ (k - e))) at 1. apply round_le.
    apply Qle_shift_div_l; [exact Pe |]. rewrite <- E. exact Hq. }
  rewrite E. apply Qmult_le_compat_r; [| lra].
  rewrite <- Zle_Qle. exact R.
Qed.

Lemma scaled_mono (a b : Q) (e : Z) :
  a <= b ->
  inject_Z (round (a / pow2 e)) * pow2 e
  <= inject_Z (round (b / pow2 e)) * pow2 e.
Proof.
  intro H. pose proof (pow2_pos e) as Pe.
  apply Qmult_le_compat_r; [| lra].
  rewrite <- Zle_Qle. apply round_le.
  apply Qmult_le_compat_r; [exact H |].
  apply Qlt_le_weak. apply Qinv_lt_0_compat. exact Pe.
Qed.

Lemma fl64_nonneg (q : Q) : 0 <= q -> 0 <= fl64 q.
Proof.
  intro H. destruct (Qeq_dec q 0) as [E | NE].
  - rewrite (fl64_zero q E). apply Qle_refl.
  - rewrite (fl64_value q NE).
    set (e := Z.max (ilog2 (Qabs q) - 52) (-1074)).
    pose proof (scaled_mono 0 q e H) as M.
    assert (Z0 : inject_Z (round (0 / pow2 e)) * pow2 e == 0).
    { rewrite (round_eq (0 / pow2 e) (inject_Z 0)).
      - rewrite round_inject_Z. ring.
      - unfold Qdiv. change (inject_Z 0) with 0. ring. }
    rewrite Z0 in M. exact M.
Qed.

Lemma fl64_nonpos (q : Q) : q <= 0 -> fl64 q <= 0.
Proof.
  intro H. destruct (Qeq_dec q 0) as [E | NE].
  - rewrite (fl64_zero q E). apply Qle_refl.
  - rewrite (fl64_value q NE).
    set (e := Z.max (ilog2 (Qabs q) - 52) (-1074)).
    pose proof (scaled_mono q 0 e H) as M.
    assert (Z0 : inject_Z (round (0 / pow2 e)) * pow2 e == 0).
    { rewrite (round_eq (0 / pow2 e) (inject_Z 0)).
      - rewrite round_inject_Z. ring.
      - unfold Qdiv. change (inject_Z 0) with 0. ring. }
    rewrite Z0 in M. exact M.
Qed.

Lemma fl64_mono_pos (a b : Q) : 0 < a -> a <= b -> fl64 a <= fl64 b.
Proof.
  intros Ha Hab.
  assert (Hb : 0 < b) by lra.
  rewrite (fl64_value a) by lra. rewrite (fl64_value b) by lra.
  assert (Aa : Qabs a == a) by (apply Qabs_pos; lra).
  assert (Ab : Qabs b == b) by (apply Qabs_pos; lra).
  destruct (ilog2_spec (Qabs a) ltac:(lra)) as [La Ua].
  destruct (ilog2_spec (Qabs b) ltac:(lra)) as [Lb Ub].
  pose proof (ilog2_le (Qabs a) (Qabs b) ltac:(lra) ltac:(lra)) as Hl.
  set (la := ilog2 (Qabs a)) in *. set (lb := ilog2 (Qabs b)) in *.
  destruct (Z.eq_dec (Z.max (la - 52) (-1074)) (Z.max (lb - 52) (-1074)))
    as [Ee | Ne].
  - rewrite Ee. now apply scaled_mono.
  - assert (Hlt : (la + 1 <= lb)%Z) by lia.
    assert (Eb : Z.max (lb - 52) (-1074) = (lb - 52)%Z) by lia.
    pose proof (pow2_le (la + 1) lb Hlt) as P.
    apply Qle_trans with (pow2 lb).
    + apply scaled_le; [lia | lra].
    + rewrite Eb. apply scaled_ge; [lia | lra].
Qed.

Lemma fl64_mono_neg (a b : Q) : b < 0 -> a <= b -> fl64 a <= fl64 b.
Proof.
  intros Hb Hab.
  assert (Ha : a < 0) by lra.
  rewrite (fl64_value a) by lra. rewrite (fl64_value b) by lra.
  assert (Aa : Qabs a == - a) by (apply Qabs_neg; lra).
  assert (Ab : Qabs b == - b) by (apply Qabs_neg; lra).
  destruct (ilog2_spec (Qabs a) ltac:(lra)) as [La Ua].
  destruct (ilog2_spec (Qabs b) ltac:(lra)) as [Lb Ub].
  pose proof (ilog2_le (Qabs b) (Qabs a) ltac:(lra) ltac:(lra)) as Hl.
  set (la := ilog2 (Qabs a)) in *. set (lb := ilog2 (Qabs b)) in *.
  destruct (Z.eq_dec (Z.max (la - 52) (-1074)) (Z.max (lb - 52) (-1074)))
    as [Ee | Ne].
  - rewrite Ee. now apply scaled_mono.
  - assert (Hlt : (lb + 1 <= la)%Z) by lia.
    assert (Ea : Z.max (la - 52) (-1074) = (la - 52)%Z) by lia.
    pose proof (pow2_le (lb + 1) la Hlt) as P.
    apply Qle_trans with (- pow2 la).
    + rewrite Ea. apply scaled_le_neg; [lia | lra].
    + apply scaled_ge_neg; [lia | lra].
Qed.

Lemma fl64_monotone (a b : Q) : a <= b -> fl64 a <= fl64 b.
Proof.
  intro H.
  destruct (Qlt_le_dec 0 a) as [Ha | Ha].
  - now apply fl64_mono_pos.
  - destruct (Qlt_le_dec b 0) as [Hb | Hb].
    + now apply fl64_mono_neg.
    + apply Qle_trans with 0; [now apply fl64_nonpos | now apply fl64_nonneg].
Qed.

(** The three gravities of [apply_gravity] in binary64. *)
Lemma gravity_to_apply_order :
  0 <= fl64 (fl64 (GRAVITY_fl fl64 * fl64 (7 # 10)) * fl64 (6 # 10)) /\
  fl64 (fl64 (GRAVITY_fl fl64 * fl64 (7 # 10)) * fl64 (6 # 10))
    <= fl64 (GRAVITY_fl fl64 * fl64 (7 # 10)) /\
  fl64 (GRAVITY_fl fl64 * fl64 (7 # 10)) <= GRAVITY_fl fl64 /\
  0 <= GRAVITY_fl fl64.
Proof. repeat split; vm_compute; discriminate. Qed.

(** X18. Gravity never lifts, in binary64: for a stored [vy] that is a
    binary64 number, [apply_gravity] never lowers [vy], never raises it by
    more than adding [GRAVITY] does, changes no other field, and while the
    player rises gives a [vy] with the jump key held that is no larger
    than with it released. *)
Theorem gravity_bounds (p : Player) (held : bool) :
  fl64 (vy p) == vy p ->
  (vy p <= vy (apply_gravity_fl fl64 held p) /\
   vy (apply_gravity_fl fl64 held p) <= fl64 (vy p + GRAVITY_fl fl64)) /\
  apply_gravity_fl fl64 held p
    = set_vy (vy (apply_gravity_fl fl64 held p)) p /\
  (vy p < 0 ->
   vy (apply_gravity_fl fl64 true p) <= vy (apply_gravity_fl fl64 false p)).
Proof.
  intros Hvy.
  destruct gravity_to_apply_order as (Ga & Gb & Gc & Gd).
  split; [| split].
  - destruct (Qlt_le_dec (vy p) 0) as [Hneg | Hpos].
    + destruct (apply_gravity_fl_rising fl64 p Hneg) as [E1 E2].
      destruct held; [rewrite E1 | rewrite E2]; split;
        try (rewrite <- Hvy at 1; apply fl64_monotone; lra);
        apply fl64_monotone; lra.
    + rewrite (apply_gravity_fl_falling fl64 p held Hpos). split.
      * rewrite <- Hvy at 1. apply fl64_monotone. lra.
      * apply Qle_refl.
  - reflexivity.
  - intro Hneg. destruct (apply_gravity_fl_rising fl64 p Hneg) as [E1 E2].
    rewrite E1, E2. apply fl64_monotone. lra.
Qed.







(** ** The whole game *)

(** X20. From start-up on the player never overlaps a wall: when the
    scanned area holds a player tile, after [Game.__init__] and any number
    of frames, whatever their keys, the player's box overlaps no wall tile
    of the map, and its position is on whole pixels with no horizontal
    remainder. *)
Theorem game_never_overlaps (width height : Z) (tm : Tilemap)
        (frames : list Keys) (n : nat) :
  (exists c r, in_area width height c r /\ tm c r = PLAYER_TILE) ->
  check_collision (snd (run_io (Game_init width height) tm))
    (x (run_frames (snd (run_io (Game_init width height) tm))
          (firstn n frames) (fst (run_io (Game_init width height) tm))))
    (y (run_frames (snd (run_io (Game_init width height) tm))
          (firstn n frames) (fst (run_io (Game_init width height) tm))))
    = false /\
  is_integer
    (x (run_frames (snd (run_io (Game_init width height) tm))
          (firstn n frames) (fst (run_io (Game_init width height) tm)))) /\
  is_integer
    (y (run_frames (snd (run_io (Game_init width height) tm))
          (firstn n frames) (fst (run_io (Game_init width height) tm)))) /\
  x_remainder
    (run_frames (snd (run_io (Game_init width height) tm))
       (firstn n frames) (fst (run_io (Game_init width height) tm))) == 0.
Proof.
  intro Hex. split.
  - apply run_frames_clear. now apply game_init_clear.
  - destruct (game_init_found width height tm Hex) as (c & r & _ & _ & Hres).
    destruct (run_frames_on_pixels (snd (run_io (Game_init width height) tm))
                (firstn n frames) (fst (run_io (Game_init width height) tm)))
      as (A & B & C & _).
    + rewrite Hres. unfold on_pixels, place. simpl.
      repeat split; try reflexivity; try (apply is_integer_iff; eexists; reflexivity);
        try lra.
    + split; [exact A | split; [exact B | exact C]].
Qed.

(** * The further properties on the concrete level *)




(** At the top-left pixel of cell (5, 3), a cell of the wall. *)
Lemma probe_aligned_witness :
  check_collision level_map 40 24 = is_wall (level_map 5%Z 3%Z) /\
  (check_collision level_map 40 24 = true
   <-> In (level_map 5%Z 3%Z) WALL_TILES).
Proof.
  apply (probe_aligned level_map 40 24 5 3); reflexivity.
Defined.

Lemma scan_map_no_marker_witness :
  run_io (scan_map 16 16 (Player_init 64 64)) level_map
  = (Player_init 64 64, level_map).
Proof.
  apply (scan_map_no_marker 16 16 (Player_init 64 64) level_map).
  intros c r _. unfold level_map.
  destruct (r =? 4)%Z; [discriminate |].
  destruct (c =? 5)%Z; discriminate.
Defined.

Lemma scan_map_unique_marker_witness :
  fst (run_io (scan_map 16 16 (Player_init 64 64)) spawn_map)
  = mkPlayer (inject_Z (3 * TILE_SIZE)) (inject_Z (2 * TILE_SIZE))
      (x_remainder (Player_init 64 64)) (y_remainder (Player_init 64 64))
      (vx (Player_init 64 64)) (vy (Player_init 64 64)).
Proof.
  apply (scan_map_unique_marker 16 16 (Player_init 64 64) spawn_map 3 2).
  - unfold in_area. lia.
  - reflexivity.
  - intros c' r' _ Hne. unfold spawn_map.
    destruct (c' =? 3)%Z eqn:Ec; [| discriminate].
    destruct (r' =? 2)%Z eqn:Er; [| discriminate].
    apply Z.eqb_eq in Ec, Er. subst. contradiction.
Defined.

Lemma game_starts_clear_witness :
  (exists c r,
     in_area 16 16 c r /\ start_map c r = PLAYER_TILE /\
     fst (run_io (Game_init 16 16) start_map)
     = mkPlayer (inject_Z (c * TILE_SIZE)) (inject_Z (r * TILE_SIZE))
         0 0 0 0) /\
  check_collision (snd (run_io (Game_init 16 16) start_map))
    (x (fst (run_io (Game_init 16 16) start_map)))
    (y (fst (run_io (Game_init 16 16) start_map))) = false.
Proof.
  apply (game_starts_clear 16 16 start_map).
  exists 3%Z, 3%Z. split; [unfold in_area; lia | reflexivity].
Defined.

Lemma frames_never_overlap_witness :
  check_collision level_map
    (x (run_frames level_map (firstn 3 sample_frames) (Player_init 28 24)))
    (y (run_frames level_map (firstn 3 sample_frames) (Player_init 28 24)))
  = false.
Proof.
  apply (frames_never_overlap level_map sample_frames (Player_init 28 24) 3).
  reflexivity.
Defined.

Lemma frames_on_whole_pixels_witness :
  is_integer (x (run_frames level_map (firstn 4 sample_frames)
                   (Player_init 28 24))) /\
  is_integer (y (run_frames level_map (firstn 4 sample_frames)
                   (Player_init 28 24))) /\
  x_remainder (run_frames level_map (firstn 4 sample_frames)
                 (Player_init 28 24)) == 0 /\
  - (1 # 2) <= y_remainder (run_frames level_map (firstn 4 sample_frames)
                              (Player_init 28 24)) /\
  y_remainder (run_frames level_map (firstn 4 sample_frames)
                 (Player_init 28 24)) <= 1 # 2.
Proof.
  apply (frames_on_whole_pixels level_map sample_frames (Player_init 28 24) 4).
  - reflexivity.
  - reflexivity.
  - reflexivity.
  - reflexivity.
  - vm_compute. discriminate.
  - vm_compute. discriminate.
Defined.


(** Four pixels above the floor the jump still takes effect. *)
Lemma jump_reach_witness :
  vy (jump level_map (Player_init 28 20)) = - JUMP_POWER.
Proof.
  apply (jump_reach level_map (Player_init 28 20) 3 4).
  - vm_compute. auto.
  - vm_compute. split; discriminate.
  - vm_compute. discriminate.
  - vm_compute. discriminate.
Defined.



Lemma game_never_overlaps_witness :
  check_collision (snd (run_io (Game_init 16 16) start_map))
    (x (run_frames (snd (run_io (Game_init 16 16) start_map))
          (firstn 4 sample_frames) (fst (run_io (Game_init 16 16) start_map))))
    (y (run_frames (snd (run_io (Game_init 16 16) start_map))
          (firstn 4 sample_frames) (fst (run_io (Game_init 16 16) start_map))))
    = false /\
  is_integer
    (x (run_frames (snd (run_io (Game_init 16 16) start_map))
          (firstn 4 sample_frames) (fst (run_io (Game_init 16 16) start_map)))) /\
  is_integer
    (y (run_frames (snd (run_io (Game_init 16 16) start_map))
          (firstn 4 sample_frames) (fst (run_io (Game_init 16 16) start_map)))) /\
  x_remainder
    (run_frames (snd (run_io (Game_init 16 16) start_map))
       (firstn 4 sample_frames) (fst (run_io (Game_init 16 16) start_map))) == 0.
Proof.
  apply (game_never_overlaps 16 16 start_map sample_frames 4).
  exists 3%Z, 3%Z. split; [unfold in_area; lia | reflexivity].
Defined.

Lemma probe_four_cells_witness :
  (floordiv (fl64 (fl64 (28 + inject_Z TILE_SIZE) - 1)) TILE_SIZE
     = floordiv 28 TILE_SIZE \/
   floordiv (fl64 (fl64 (28 + inject_Z TILE_SIZE) - 1)) TILE_SIZE
     = (floordiv 28 TILE_SIZE + 1)%Z) /\
  (floordiv (fl64 (fl64 (25 + inject_Z TILE_SIZE) - 1)) TILE_SIZE
     = floordiv 25 TILE_SIZE \/
   floordiv (fl64 (fl64 (25 + inject_Z TILE_SIZE) - 1)) TILE_SIZE
     = (floordiv 25 TILE_SIZE + 1)%Z) /\
  check_collision_fl fl64 level_map 28 25 =
    (is_wall (level_map (floordiv 28 TILE_SIZE) (floordiv 25 TILE_SIZE))
     || is_wall
          (level_map (floordiv (fl64 (fl64 (28 + inject_Z TILE_SIZE) - 1)) TILE_SIZE)
             (floordiv 25 TILE_SIZE))
     || is_wall
          (level_map (floordiv 28 TILE_SIZE)
             (floordiv (fl64 (fl64 (25 + inject_Z TILE_SIZE) - 1)) TILE_SIZE))
     || is_wall
          (level_map (floordiv (fl64 (fl64 (28 + inject_Z TILE_SIZE) - 1)) TILE_SIZE)
             (floordiv (fl64 (fl64 (25 + inject_Z TILE_SIZE) - 1)) TILE_SIZE))).
Proof.
  apply (probe_four_cells fl64 level_map 28 25); vm_compute; reflexivity.
Defined.

(** Rising at [vy = -1], a binary64 number. *)
Lemma gravity_bounds_witness :
  (vy (mkPlayer 0 0 0 0 0 (-1))
     <= vy (apply_gravity_fl fl64 true (mkPlayer 0 0 0 0 0 (-1))) /\
   vy (apply_gravity_fl fl64 true (mkPlayer 0 0 0 0 0 (-1)))
     <= fl64 (vy (mkPlayer 0 0 0 0 0 (-1)) + GRAVITY_fl fl64)) /\
  apply_gravity_fl fl64 true (mkPlayer 0 0 0 0 0 (-1))
    = set_vy (vy (apply_gravity_fl fl64 true (mkPlayer 0 0 0 0 0 (-1))))
        (mkPlayer 0 0 0 0 0 (-1)) /\
  (vy (mkPlayer 0 0 0 0 0 (-1)) < 0 ->
   vy (apply_gravity_fl fl64 true (mkPlayer 0 0 0 0 0 (-1)))
     <= vy (apply_gravity_fl fl64 false (mkPlayer 0 0 0 0 0 (-1)))).
Proof.
  apply (gravity_bounds (mkPlayer 0 0 0 0 0 (-1)) true).
  vm_compute. reflexivity.
Defined.
